(** * Stmp3 server: job registry, credential store and local transcription

    A shallow embedding of the server-side JavaScript of the repository:
    - [src/server/src/index.js]: the HTTP gateway and the in-memory job
      registry ([jobs], the stdout / stderr / close handlers);
    - [services/keys.js] (first part of [src/unnamed/part_000]): the
      credential store ([encrypt], [decrypt], [setKey], [getKey]);
    - [services/whisper.js] (second part of [src/unnamed/part_000]):
      [transcribeLocal].

    JavaScript strings are sequences of UTF-16 code units; buffers are
    sequences of bytes.  Built-ins of the runtime that the code calls
    (UTF-8 and hex codecs, [String.prototype.split], [trim], [replace]
    with the one regular expression used, AES-256-CBC and SHA-256 of the
    [crypto] module) are modelled by their standard definitions. *)

From Stdlib Require Import ZArith Lia Bool List DecimalString.
From Stdlib.Strings Require Import Byte String Ascii.
From stdpp Require Import base option list gmap.
Import ListNotations.

#[local] Open Scope Z_scope.

(** ** Bytes and JavaScript strings *)

(** A JavaScript string: its UTF-16 code units, each in [0, 65536). *)
Abbreviation jsstring := (list Z) (only parsing).

Definition bz (b : byte) : Z := Z.of_N (Byte.to_N b).

#[global] Instance byte_eq_dec : EqDecision byte := Byte.byte_eq_dec.

Definition zb (z : Z) : byte :=
  match Byte.of_N (Z.to_N z) with
  | Some b => b
  | None => x00
  end.

Definition code_unit (c : Z) : bool := (0 <=? c) && (c <? 65536).

Definition is_high_surrogate (c : Z) : bool := (0xD800 <=? c) && (c <=? 0xDBFF).
Definition is_low_surrogate (c : Z) : bool := (0xDC00 <=? c) && (c <=? 0xDFFF).

(** [String.prototype.isWellFormed]: every code unit is in range and
    no surrogate is unpaired. *)
Fixpoint isWellFormed (s : jsstring) : bool :=
  match s with
  | [] => true
  | c :: r =>
      if negb (code_unit c) then false
      else if is_high_surrogate c then
        match r with
        | d :: r' => is_low_surrogate d && isWellFormed r'
        | [] => false
        end
      else if is_low_surrogate c then false
      else isWellFormed r
  end.

(** *** UTF-8 *)

(** The code units of a code point (a surrogate pair above the BMP). *)
Definition units_of_code_point (cp : Z) : jsstring :=
  if cp <? 0x10000 then [cp]
  else [0xD800 + (cp - 0x10000) / 1024; 0xDC00 + (cp - 0x10000) mod 1024].

Definition REPLACEMENT : Z := 0xFFFD.

(** One step of the decoder on byte [b].  The state is the number of
    continuation bytes still [needed], the code point accumulated so
    far and the bounds [lo], [hi] for the next byte; [k] decodes the
    rest of the input from a new state.  A byte that cannot continue
    the sequence yields one U+FFFD for what was read and is then read
    again as a lead byte. *)
Definition utf8_step (k : Z -> Z -> Z -> Z -> jsstring)
    (needed cp lo hi : Z) (b : byte) : jsstring :=
  let x := bz b in
  let lead (_ : unit) : jsstring :=
    if x <? 0x80 then x :: k 0 0 0x80 0xBF
    else if x <? 0xC2 then REPLACEMENT :: k 0 0 0x80 0xBF
    else if x <? 0xE0 then k 1 (x - 0xC0) 0x80 0xBF
    else if x <? 0xF0 then
      k 2 (x - 0xE0) (if x =? 0xE0 then 0xA0 else 0x80)
                     (if x =? 0xED then 0x9F else 0xBF)
    else if x <? 0xF5 then
      k 3 (x - 0xF0) (if x =? 0xF0 then 0x90 else 0x80)
                     (if x =? 0xF4 then 0x8F else 0xBF)
    else REPLACEMENT :: k 0 0 0x80 0xBF in
  if needed =? 0 then lead tt
  else if (lo <=? x) && (x <=? hi) then
    let cp' := cp * 64 + (x - 0x80) in
    if needed =? 1 then units_of_code_point cp' ++ k 0 0 0x80 0xBF
    else k (needed - 1) cp' 0x80 0xBF
  else REPLACEMENT :: lead tt.

Fixpoint utf8_run (needed cp lo hi : Z) (bs : list byte) : jsstring :=
  match bs with
  | [] => if needed =? 0 then [] else [REPLACEMENT]
  | b :: r => utf8_step (fun n c l h => utf8_run n c l h r) needed cp lo hi b
  end.

(** [buf.toString('utf8')]: decoding with replacement of ill-formed
    sequences. *)
Definition utf8_decode (bs : list byte) : jsstring := utf8_run 0 0 0x80 0xBF bs.

(** [Buffer.from(s, 'utf8')] (also [cipher.update(s, 'utf8')]): an
    unpaired surrogate is encoded as U+FFFD. *)
Definition utf8_replacement : list byte := [xef; xbf; xbd].

Definition utf8_of_code_point (cp : Z) : list byte :=
  if cp <? 0x80 then [zb cp]
  else if cp <? 0x800 then [zb (0xC0 + cp / 64); zb (0x80 + cp mod 64)]
  else if cp <? 0x10000 then
    [zb (0xE0 + cp / 4096); zb (0x80 + (cp / 64) mod 64); zb (0x80 + cp mod 64)]
  else
    [zb (0xF0 + cp / 262144); zb (0x80 + (cp / 4096) mod 64);
     zb (0x80 + (cp / 64) mod 64); zb (0x80 + cp mod 64)].

Fixpoint utf8_encode (s : jsstring) : list byte :=
  match s with
  | [] => []
  | c :: r =>
      if is_high_surrogate c then
        match r with
        | d :: r' =>
            if is_low_surrogate d
            then utf8_of_code_point
                   (0x10000 + (c - 0xD800) * 1024 + (d - 0xDC00))
                 ++ utf8_encode r'
            else utf8_replacement ++ utf8_encode r
        | [] => utf8_replacement
        end
      else if is_low_surrogate c then utf8_replacement ++ utf8_encode r
      else utf8_of_code_point c ++ utf8_encode r
  end.

(** A string literal of the source, as code units.  The literal is
    written in UTF-8 in this file, as in the JavaScript source. *)
Definition js (s : string) : jsstring := utf8_decode (list_byte_of_string s).


(** *** Built-ins on strings *)

(** [String(n)] / template interpolation of an integer. *)
Definition string_of_int (n : Z) : jsstring :=
  js (DecimalString.NilZero.string_of_int (Z.to_int n)).

(** White space and line terminators, as removed by [trim]. *)
Definition is_white_space (c : Z) : bool :=
  bool_decide (c ∈ [0x09; 0x0A; 0x0B; 0x0C; 0x0D; 0x20; 0xA0; 0x1680;
                    0x2028; 0x2029; 0x202F; 0x205F; 0x3000; 0xFEFF])
  || ((0x2000 <=? c) && (c <=? 0x200A)).

Fixpoint trimStart (s : jsstring) : jsstring :=
  match s with
  | c :: r => if is_white_space c then trimStart r else s
  | [] => []
  end.

Definition trim (s : jsstring) : jsstring :=
  rev (trimStart (rev (trimStart s))).

(** [toLowerCase], on the ASCII range.  The only use compares the result
    with ['local'], and no character outside A-Z maps to one of the
    letters of that word. *)
Definition toLowerCase (s : jsstring) : jsstring :=
  map (fun c => if (65 <=? c) && (c <=? 90) then c + 32 else c) s.

(** [s.split(/\n+/)]: the pieces between maximal runs of line feeds
    (an empty first or last piece when [s] starts or ends with one). *)
Fixpoint split_lf_runs (acc : jsstring) (in_run : bool) (s : jsstring)
    : list jsstring :=
  match s with
  | [] => [rev acc]
  | c :: r =>
      if c =? 10 then
        if in_run then split_lf_runs acc true r
        else rev acc :: split_lf_runs [] true r
      else split_lf_runs (c :: acc) false r
  end.

(** [.filter(Boolean)] on an array of strings drops the empty ones. *)
Definition filter_Boolean (l : list jsstring) : list jsstring :=
  filter (fun x => x ≠ []) l.

(** ** The job registry ([src/server/src/index.js]) *)

Inductive job_status := processing | done | error.

#[global] Instance job_status_eq_dec : EqDecision job_status.
Proof. solve_decision. Defined.

(** [{ status, progress, result, error }]; [None] is [null]. *)
Record job := Job {
  status : job_status;
  progress : Z;
  result : option jsstring;
  error_msg : option jsstring
}.

(** [jobs.set(jobId, { status: 'processing', progress: 0, result: null,
    error: null })] *)
Definition new_job : job := Job processing 0 None None.

(** *** The stdout handler *)

Definition is_digit (c : Z) : bool := (48 <=? c) && (c <=? 57).

Fixpoint strip_prefix (p s : jsstring) : option jsstring :=
  match p, s with
  | [], _ => Some s
  | a :: p', b :: s' => if a =? b then strip_prefix p' s' else None
  | _ :: _, [] => None
  end.

(** Greedy [\d{1,n}]: the longest run of at most [n] digits. *)
Fixpoint take_digits (n : nat) (s : jsstring) : jsstring :=
  match n, s with
  | S n', c :: r => if is_digit c then c :: take_digits n' r else []
  | _, _ => []
  end.

(** [line.match(/PROGRESS (\d{1,3})/)]: the capture group [m[1]] of the
    leftmost match, [None] when the line does not match. *)
Fixpoint match_PROGRESS (line : jsstring) : option jsstring :=
  match line with
  | [] => None
  | _ :: r =>
      match strip_prefix (js "PROGRESS ") line with
      | Some after =>
          match take_digits 3 after with
          | [] => match_PROGRESS r
          | ds => Some ds
          end
      | None => match_PROGRESS r
      end
  end.

(** [parseInt(s, 10)] on a string of decimal digits. *)
Definition parseInt (s : jsstring) : Z :=
  fold_left (fun acc c => acc * 10 + (c - 48)) s 0.

(** [if (job && job.status === 'processing') job.progress = pct] *)
Definition updateProgress (jobId : jsstring) (pct : Z)
    (jobs : gmap (list Z) job) : gmap (list Z) job :=
  match jobs !! jobId with
  | Some j =>
      match status j with
      | processing => <[jobId := Job processing pct (result j) (error_msg j)]> jobs
      | _ => jobs
      end
  | None => jobs
  end.

(** Body of the [for (const line of lines)] loop. *)
Definition on_line (jobId : jsstring) (jobs : gmap (list Z) job)
    (line : jsstring) : gmap (list Z) job :=
  match match_PROGRESS line with
  | Some m1 => updateProgress jobId (Z.min 100 (parseInt m1)) jobs
  | None => jobs
  end.

Definition stdout_lines (d : list byte) : list jsstring :=
  filter_Boolean (split_lf_runs [] false (utf8_decode d)).

(** [ps.stdout.on('data', d => ...)] *)
Definition on_stdout (jobId : jsstring) (d : list byte)
    (jobs : gmap (list Z) job) : gmap (list Z) job :=
  fold_left (on_line jobId) (stdout_lines d) jobs.

(** *** The close handler *)

(** Outcome of [readFile(path, 'utf8')]: the text, or the message of
    the error it rejects with. *)
Definition read_result : Type := jsstring + jsstring.

(** [a || b] on strings: the empty string is falsy. *)
Definition or_else (a b : jsstring) : jsstring :=
  match a with [] => b | _ => a end.

(** The interpolated exit code: a number, or [null] when the subprocess
    was ended by a signal. *)
Definition show_code (code : option Z) : jsstring :=
  match code with
  | Some c => string_of_int c
  | None => js "null"
  end.

(** [ps.on('close', async code => ...)], with the accumulated [stderr]
    and the outcome of reading the output file. *)
Definition on_close (jobId : jsstring) (code : option Z) (out : read_result)
    (stderr : jsstring) (jobs : gmap (list Z) job) : gmap (list Z) job :=
  match jobs !! jobId with
  | None => jobs
  | Some j =>
      if bool_decide (code = Some 0) then
        match out with
        | inl text => <[jobId := Job done 100 (Some (trim text)) (error_msg j)]> jobs
        | inr message => <[jobId := Job error (progress j) (result j) (Some message)]> jobs
        end
      else
        <[jobId := Job error (progress j) (result j)
                     (Some (or_else stderr (js "exit code " ++ show_code code)))]> jobs
  end.

(** *** The registry as a transition system *)

(** What can happen to the registry: a local-mode request is accepted
    under a fresh identifier, and the subprocess of a job writes to
    its standard output or error, or is closed. *)
Inductive event :=
  | Accept (jobId : jsstring)
  | Stdout (jobId : jsstring) (d : list byte)
  | Stderr (jobId : jsstring) (d : list byte)
  | Close (jobId : jsstring) (code : option Z) (out : read_result).

(** The [jobs] map and the [stderr] variable of each request. *)
Record server := Server {
  jobs : gmap (list Z) job;
  stderr_of : gmap (list Z) (list Z)
}.

Definition init : server := Server ∅ ∅.

Definition step (s : server) (e : event) : server :=
  match e with
  | Accept id => Server (<[id := new_job]> (jobs s)) (<[id := []]> (stderr_of s))
  | Stdout id d => Server (on_stdout id d (jobs s)) (stderr_of s)
  | Stderr id d =>
      Server (jobs s)
        (<[id := default [] (stderr_of s !! id) ++ utf8_decode d]> (stderr_of s))
  | Close id code out =>
      Server (on_close id code out (default [] (stderr_of s !! id)) (jobs s))
        (stderr_of s)
  end.

Definition run (s : server) (tr : list event) : server := fold_left step tr s.

Definition accepts (id : jsstring) (e : event) : bool :=
  match e with Accept i => bool_decide (i = id) | _ => false end.

Definition closes (id : jsstring) (e : event) : bool :=
  match e with Close i _ _ => bool_decide (i = id) | _ => false end.

Definition count (p : event -> bool) (tr : list event) : nat :=
  length (filter (fun e => p e = true) tr).

Definition status_of (id : jsstring) (s : server) : option job_status :=
  status <$> jobs s !! id.


Definition terminal (st : job_status) : bool :=
  match st with processing => false | _ => true end.

(** ** The environment of a request *)

(** A thrown value, as far as the handlers look at it:
    [e.response.data] and [e.message]. *)
Record js_error := JsError {
  response_data : option jsstring;
  message : jsstring
}.

(** [process.env.NAME || fallback] *)
Definition getenv (env : gmap (list Z) (list Z)) (name : string)
    (fallback : jsstring) : jsstring :=
  or_else (default [] (env !! js name)) fallback.

(** [path.join] of already normalised segments. *)
Definition join (segments : list jsstring) : jsstring :=
  match segments with
  | [] => js "."
  | s :: rest => fold_left (fun p q => p ++ js "/" ++ q) rest s
  end.

(** Calls that leave the process, in the order they are made. *)
Inductive effect :=
  | WriteFile (path : jsstring) (data : list byte)
  | ReadFile (path : jsstring)
  | Unlink (path : jsstring)
  | Spawn (command : jsstring) (args : list jsstring)
  | Transcribe (buffer : list byte) (filename : jsstring)
  | SendJson (statusCode : Z) (body : list (string * jsstring)).

Definition is_Transcribe (e : effect) : bool :=
  match e with Transcribe _ _ => true | _ => false end.

Definition is_Spawn (e : effect) : bool :=
  match e with Spawn _ _ => true | _ => false end.

Definition is_Unlink (e : effect) : bool :=
  match e with Unlink _ => true | _ => false end.

(** ** POST /api/transcribe ([src/server/src/index.js], lines 61-131) *)

(** [req.file] as multer leaves it. *)
Record upload := Upload {
  mimetype : jsstring;
  originalname : jsstring;
  buffer : list byte
}.

(** What the handler reads from outside, and how the calls it makes
    turn out. *)
Record world := World {
  env : gmap (list Z) (list Z);
  tmpdir : jsstring;
  cwd : jsstring;
  randomUUID : jsstring;
  createWhisperTranscription : jsstring + js_error;
  writeFile : option js_error;
  spawn : option js_error
}.

Definition okMimes : list jsstring :=
  [js "audio/mpeg"; js "audio/mp3"; js "audio/wav"; js "audio/x-wav";
   js "audio/wave"; js "audio/x-pn-wav"].

(** [e?.response?.data || e?.message || 'Unknown error'] *)
Definition error_text (e : js_error) : jsstring :=
  or_else (default [] (response_data e)) (or_else (message e) (js "Unknown error")).

Record outcome := Outcome {
  effects : list effect;
  jobs_after : gmap (list Z) job;
  (** the identifier whose stdout / stderr / close handlers were
      registered on a spawned subprocess *)
  watching : option jsstring
}.

(** The [catch (e)] of the handler: a 500 is sent, also when a response
    has already gone out (that second send then throws inside the
    runtime and reaches no client). *)
Definition catch_500 (e : js_error) : effect :=
  SendJson 500 [("error"%string, error_text e)].

Definition post_transcribe (w : world) (file : option upload)
    (jobs : gmap (list Z) job) : outcome :=
  match file with
  | None =>
      Outcome [SendJson 400 [("error"%string, js "缺少 audio 檔案")]] jobs None
  | Some f =>
      if negb (bool_decide (mimetype f ∈ okMimes)) then
        Outcome [SendJson 400 [("error"%string, js "僅支援 mp3 或 wav")]] jobs None
      else
        let mode := toLowerCase (getenv (env w) "WHISPER_MODE" (js "api")) in
        if negb (bool_decide (mode = js "local")) then
          let call := Transcribe (buffer f) (originalname f) in
          match createWhisperTranscription w with
          | inl txt =>
              Outcome [call; SendJson 200 [("text"%string, txt);
                                           ("mode"%string, js "api");
                                           ("done"%string, js "true")]]
                jobs None
          | inr e => Outcome [call; catch_500 e] jobs None
          end
        else
          let jobId := randomUUID w in
          let jobs1 := <[jobId := new_job]> jobs in
          let sent := SendJson 200 [("jobId"%string, jobId);
                                    ("mode"%string, js "local");
                                    ("done"%string, js "false")] in
          let wavPath :=
            join [tmpdir w; js "in-" ++ jobId ++ js "-" ++ originalname f] in
          let outPath := join [tmpdir w; js "out-" ++ jobId ++ js ".txt"] in
          let write := WriteFile wavPath (buffer f) in
          match writeFile w with
          | Some e => Outcome [sent; write; catch_500 e] jobs1 None
          | None =>
              let py := getenv (env w) "PYTHON_EXEC" (js "python") in
              let model := getenv (env w) "LOCAL_WHISPER_MODEL" (js "large-v3-turbo") in
              let device := getenv (env w) "LOCAL_DEVICE" (js "cpu") in
              let compute := getenv (env w) "LOCAL_COMPUTE" (js "int8") in
              let script :=
                join [cwd w; js "src"; js "services"; js "whisper_local.py"] in
              let args := [script; wavPath; outPath; model; device; compute] in
              match spawn w with
              | Some e => Outcome [sent; write; Spawn py args; catch_500 e] jobs1 None
              | None => Outcome [sent; write; Spawn py args] jobs1 (Some jobId)
              end
          end
  end.

(** A record of one background task from the request to the end of its
    subprocess: the handler runs, then the events of the watched
    subprocess (if one was spawned) reach the registry. *)
Definition background (w : world) (f : upload) (evs : list event)
    (s : server) : server :=
  let o := post_transcribe w (Some f) (jobs s) in
  match watching o with
  | Some jobId => run (Server (jobs_after o) (<[jobId := []]> (stderr_of s))) evs
  | None => Server (jobs_after o) (stderr_of s)
  end.

(** ** [transcribeLocal] ([services/whisper.js]) *)

Record local_world := LocalWorld {
  l_env : gmap (list Z) (list Z);
  l_tmpdir : jsstring;
  l_cwd : jsstring;
  (** the two readings of [Date.now()] *)
  now_audio : Z;
  now_out : Z;
  l_writeFile : option js_error;
  (** chunks the subprocess writes to its standard error, and the code
      it is closed with ([None] is [null]) *)
  ps_stderr : list (list byte);
  ps_code : option Z;
  l_readFile : read_result;
  (** whether each [unlink] fails *)
  unlink_fails : jsstring -> bool
}.

(** [join(tmpdir(), `audio-${Date.now()}-${filename}`)] *)
Definition tmpAudio_path (w : local_world) (filename : jsstring) : jsstring :=
  join [l_tmpdir w; js "audio-" ++ string_of_int (now_audio w) ++ js "-" ++ filename].

(** [join(tmpdir(), `trans-${Date.now()}.txt`)] *)
Definition tmpOut_path (w : local_world) : jsstring :=
  join [l_tmpdir w; js "trans-" ++ string_of_int (now_out w) ++ js ".txt"].

(** The message of the rejection on a code other than 0:
    [stderr || `python exited ${c}`]. *)
Definition exit_message (w : local_world) : jsstring :=
  or_else (fold_left (fun acc d => acc ++ utf8_decode d) (ps_stderr w) [])
          (js "python exited " ++ show_code (ps_code w)).

Definition transcribeLocal (w : local_world) (fileBuffer : list byte)
    (filename : jsstring) : list effect * (jsstring + js_error) :=
  let tmpAudio := tmpAudio_path w filename in
  let tmpOut := tmpOut_path w in
  match l_writeFile w with
  | Some e => ([WriteFile tmpAudio fileBuffer], inr e)
  | None =>
      let py := getenv (l_env w) "PYTHON_EXEC" (js "python") in
      let model := getenv (l_env w) "LOCAL_WHISPER_MODEL" (js "large-v3-turbo") in
      let device := getenv (l_env w) "LOCAL_DEVICE" (js "cpu") in
      let compute := getenv (l_env w) "LOCAL_COMPUTE" (js "int8") in
      let args :=
        [js "-u"; join [l_cwd w; js "src"; js "services"; js "whisper_local.py"];
         tmpAudio; tmpOut; model; device; compute] in
      let before := [WriteFile tmpAudio fileBuffer; Spawn py args] in
      if bool_decide (ps_code w = Some 0) then
        (* readFile(tmpOut, 'utf8').catch(() => '') *)
        let text := match l_readFile w with inl t => t | inr _ => [] end in
        (* Promise.allSettled never rejects: whether an unlink fails
           ([unlink_fails]) is not looked at *)
        (before ++ [ReadFile tmpOut; Unlink tmpAudio; Unlink tmpOut], inl (trim text))
      else
        (before, inr (JsError None (exit_message w)))
  end.

(** ** The credential store ([services/keys.js]) *)

(** *** Hex, [split] *)

Definition hex_digit (n : Z) : Z := if n <? 10 then 48 + n else 87 + n.

(** [buf.toString('hex')] *)
Definition hex_encode (bs : list byte) : jsstring :=
  flat_map (fun b => [hex_digit (bz b / 16); hex_digit (bz b mod 16)]) bs.

Definition hex_value (c : Z) : option Z :=
  if (48 <=? c) && (c <=? 57) then Some (c - 48)
  else if (97 <=? c) && (c <=? 102) then Some (c - 87)
  else if (65 <=? c) && (c <=? 70) then Some (c - 55)
  else None.

(** [Buffer.from(s, 'hex')]: decoding stops at the first pair that is
    not two hex digits. *)
Fixpoint hex_decode (s : jsstring) : list byte :=
  match s with
  | a :: b :: r =>
      match hex_value a, hex_value b with
      | Some x, Some y => zb (16 * x + y) :: hex_decode r
      | _, _ => []
      end
  | _ => []
  end.

(** [s.split(sep)] for a separator of one code unit. *)
Fixpoint split_on (sep : Z) (acc : jsstring) (s : jsstring) : list jsstring :=
  match s with
  | [] => [rev acc]
  | c :: r =>
      if c =? sep then rev acc :: split_on sep [] r
      else split_on sep (c :: acc) r
  end.

Definition COLON : Z := 58.

(** *** SHA-256 (FIPS 180-4), for [createHash('sha256')] *)

Module SHA256.

Definition mask32 (x : Z) : Z := x mod 2 ^ 32.
Definition add32 (x y : Z) : Z := mask32 (x + y).
Definition rotr (n x : Z) : Z :=
  mask32 (Z.lor (Z.shiftr x n) (Z.shiftl x (32 - n))).
Definition shr (n x : Z) : Z := Z.shiftr x n.
Definition xor3 (x y z : Z) : Z := Z.lxor x (Z.lxor y z).
Definition not32 (x : Z) : Z := Z.lxor x 0xFFFFFFFF.

Definition Ch (x y z : Z) : Z := Z.lxor (Z.land x y) (Z.land (not32 x) z).
Definition Maj (x y z : Z) : Z :=
  xor3 (Z.land x y) (Z.land x z) (Z.land y z).
Definition Sigma0 (x : Z) : Z := xor3 (rotr 2 x) (rotr 13 x) (rotr 22 x).
Definition Sigma1 (x : Z) : Z := xor3 (rotr 6 x) (rotr 11 x) (rotr 25 x).
Definition sigma0 (x : Z) : Z := xor3 (rotr 7 x) (rotr 18 x) (shr 3 x).
Definition sigma1 (x : Z) : Z := xor3 (rotr 17 x) (rotr 19 x) (shr 10 x).

Definition primes : list Z :=
  [2; 3; 5; 7; 11; 13; 17; 19; 23; 29; 31; 37; 41; 43; 47; 53; 59; 61; 67;
   71; 73; 79; 83; 89; 97; 101; 103; 107; 109; 113; 127; 131; 137; 139;
   149; 151; 157; 163; 167; 173; 179; 181; 191; 193; 197; 199; 211; 223;
   227; 229; 233; 239; 241; 251; 257; 263; 269; 271; 277; 281; 283; 293;
   307; 311].

(** Integer cube root, bit by bit from bit [n - 1] down. *)
Fixpoint cbrt_bits (n : nat) (r x : Z) : Z :=
  match n with
  | O => r
  | S n' =>
      let c := r + 2 ^ Z.of_nat n' in
      cbrt_bits n' (if c * c * c <=? x then c else r) x
  end.

(** The first 32 bits of the fractional parts of the cube roots
    (round constants) and square roots (initial hash value) of the
    first primes. *)
Definition K : list Z :=
  Eval vm_compute in map (fun p => mask32 (cbrt_bits 36 0 (p * 2 ^ 96))) primes.

Definition H0 : list Z :=
  Eval vm_compute in map (fun p => mask32 (Z.sqrt (p * 2 ^ 64))) (take 8 primes).

Definition be_bytes (n : nat) (x : Z) : list Z :=
  map (fun i => (x / 2 ^ (8 * Z.of_nat i)) mod 256) (rev (seq 0 n)).

Definition pad (msg : list Z) : list Z :=
  let l := Z.of_nat (length msg) in
  let zeros := Z.to_nat ((55 - l) mod 64) in
  msg ++ [0x80] ++ repeat 0 zeros ++ be_bytes 8 (8 * l).

Definition word_of (bs : list Z) : Z :=
  fold_left (fun acc b => acc * 256 + b) bs 0.

Fixpoint words (n : nat) (bs : list Z) : list Z :=
  match n with
  | O => []
  | S n' => word_of (take 4 bs) :: words n' (drop 4 bs)
  end.

(** The message schedule, newest word first. *)
Fixpoint schedule (n : nat) (ws : list Z) : list Z :=
  match n with
  | O => ws
  | S n' =>
      let w := add32 (add32 (sigma1 (nth 1 ws 0)) (nth 6 ws 0))
                     (add32 (sigma0 (nth 14 ws 0)) (nth 15 ws 0)) in
      schedule n' (w :: ws)
  end.

Definition round (st : list Z) (kw : Z * Z) : list Z :=
  match st with
  | [a; b; c; d; e; f; g; h] =>
      let t1 := add32 (add32 (add32 h (Sigma1 e)) (add32 (Ch e f g) kw.1)) kw.2 in
      let t2 := add32 (Sigma0 a) (Maj a b c) in
      [add32 t1 t2; a; b; c; add32 d t1; e; f; g]
  | _ => st
  end.

Definition compress (h : list Z) (block : list Z) : list Z :=
  let ws := rev (schedule 48 (rev (words 16 block))) in
  zip_with add32 h (fold_left round (zip K ws) h).

Fixpoint blocks (n : nat) (h : list Z) (bs : list Z) : list Z :=
  match n with
  | O => h
  | S n' => blocks n' (compress h (take 64 bs)) (drop 64 bs)
  end.

(** [createHash('sha256').update(data).digest()] *)
Definition digest (data : list byte) : list byte :=
  let m := pad (map bz data) in
  map zb (flat_map (be_bytes 4) (blocks (length m / 64) H0 m)).

End SHA256.

(** *** AES-256 (FIPS 197) in CBC mode with PKCS#7 padding, for
    [createCipheriv('aes-256-cbc', key, iv)] *)

Module AES.

(** **** The field GF(2^8) *)

Definition xor (a b : byte) : byte := zb (Z.lxor (bz a) (bz b)).

(** Multiplication by x modulo x^8 + x^4 + x^3 + x + 1. *)
Definition xtime (a : Z) : Z :=
  if 2 * a <? 256 then 2 * a else Z.lxor (2 * a - 256) 0x1B.

Fixpoint gf_mul_bits (n : nat) (a b : Z) : Z :=
  match n with
  | O => 0
  | S n' =>
      Z.lxor (if Z.odd b then a else 0) (gf_mul_bits n' (xtime a) (b / 2))
  end.

Definition gf_mul (a b : Z) : Z := gf_mul_bits 8 a b.

Definition mul (c : Z) (a : byte) : byte := zb (gf_mul (bz a) c).

(** The multiplicative inverse, a^254 (and 0 for 0). *)
Definition gf_inv (a : Z) : Z :=
  let a2 := gf_mul a a in
  let a4 := gf_mul a2 a2 in
  let a8 := gf_mul a4 a4 in
  let a16 := gf_mul a8 a8 in
  let a32 := gf_mul a16 a16 in
  let a64 := gf_mul a32 a32 in
  let a128 := gf_mul a64 a64 in
  gf_mul a128 (gf_mul a64 (gf_mul a32 (gf_mul a16 (gf_mul a8 (gf_mul a4 a2))))).

Definition rotl8 (k x : Z) : Z :=
  Z.lor (Z.shiftl x k) (Z.shiftr x (8 - k)) mod 256.

(** The S-box: inversion followed by the affine transformation. *)
Definition sbox_of (a : Z) : Z :=
  let x := gf_inv a in
  Z.lxor x (Z.lxor (rotl8 1 x) (Z.lxor (rotl8 2 x)
    (Z.lxor (rotl8 3 x) (Z.lxor (rotl8 4 x) 0x63)))).

Definition SBOX : list byte :=
  Eval vm_compute in map (fun i => zb (sbox_of (Z.of_nat i))) (seq 0 256).

Definition index_of (b : byte) (l : list byte) : Z :=
  match list_find (fun x => x = b) l with
  | Some (i, _) => Z.of_nat i
  | None => 0
  end.

Definition INV_SBOX : list byte :=
  Eval vm_compute in map (fun i => zb (index_of (zb (Z.of_nat i)) SBOX)) (seq 0 256).

Definition sub (b : byte) : byte := nth (Z.to_nat (bz b)) SBOX x00.
Definition inv_sub (b : byte) : byte := nth (Z.to_nat (bz b)) INV_SBOX x00.

(** **** The state: four columns of four bytes *)

Definition word : Type := byte * byte * byte * byte.
Definition block : Type := word * word * word * word.

Definition map_word (f : byte -> byte) (w : word) : word :=
  let '(a, b, c, d) := w in (f a, f b, f c, f d).

Definition zip_word (f : byte -> byte -> byte) (v w : word) : word :=
  let '(a, b, c, d) := v in
  let '(a', b', c', d') := w in (f a a', f b b', f c c', f d d').

Definition map_block (f : word -> word) (s : block) : block :=
  let '(c0, c1, c2, c3) := s in (f c0, f c1, f c2, f c3).

Definition xor_word : word -> word -> word := zip_word xor.

Definition xor_block (s t : block) : block :=
  let '(c0, c1, c2, c3) := s in
  let '(d0, d1, d2, d3) := t in
  (xor_word c0 d0, xor_word c1 d1, xor_word c2 d2, xor_word c3 d3).

Definition SubBytes : block -> block := map_block (map_word sub).
Definition InvSubBytes : block -> block := map_block (map_word inv_sub).

Definition ShiftRows (s : block) : block :=
  let '((a0, a1, a2, a3), (b0, b1, b2, b3),
        (c0, c1, c2, c3), (d0, d1, d2, d3)) := s in
  ((a0, b1, c2, d3), (b0, c1, d2, a3), (c0, d1, a2, b3), (d0, a1, b2, c3)).

Definition InvShiftRows (s : block) : block :=
  let '((a0, a1, a2, a3), (b0, b1, b2, b3),
        (c0, c1, c2, c3), (d0, d1, d2, d3)) := s in
  ((a0, d1, c2, b3), (b0, a1, d2, c3), (c0, b1, a2, d3), (d0, c1, b2, a3)).

Definition xor4 (a b c d : byte) : byte := xor a (xor b (xor c d)).

Definition mix_column (w : word) : word :=
  let '(a, b, c, d) := w in
  (xor4 (mul 2 a) (mul 3 b) c d,
   xor4 a (mul 2 b) (mul 3 c) d,
   xor4 a b (mul 2 c) (mul 3 d),
   xor4 (mul 3 a) b c (mul 2 d)).

Definition inv_mix_column (w : word) : word :=
  let '(a, b, c, d) := w in
  (xor4 (mul 14 a) (mul 11 b) (mul 13 c) (mul 9 d),
   xor4 (mul 9 a) (mul 14 b) (mul 11 c) (mul 13 d),
   xor4 (mul 13 a) (mul 9 b) (mul 14 c) (mul 11 d),
   xor4 (mul 11 a) (mul 13 b) (mul 9 c) (mul 14 d)).

Definition MixColumns : block -> block := map_block mix_column.
Definition InvMixColumns : block -> block := map_block inv_mix_column.

Definition AddRoundKey (k s : block) : block := xor_block s k.

(** **** Key expansion for a 256-bit key (Nk = 8, 60 words) *)

Definition RotWord (w : word) : word :=
  let '(a, b, c, d) := w in (b, c, d, a).

Definition SubWord : word -> word := map_word sub.

(** Rcon[i]: x^(i-1) in the first byte. *)
Definition Rcon (i : nat) : word :=
  (zb (Nat.iter (i - 1) xtime 1), x00, x00, x00).

Definition zero_word : word := (x00, x00, x00, x00).

(** Words so far, newest first; [i] is the index of the next word. *)
Fixpoint expand (n : nat) (i : nat) (ws : list word) : list word :=
  match n with
  | O => ws
  | S n' =>
      let prev := nth 0 ws zero_word in
      let temp :=
        if Nat.eqb (i mod 8) 0 then xor_word (SubWord (RotWord prev)) (Rcon (i / 8))
        else if Nat.eqb (i mod 8) 4 then SubWord prev
        else prev in
      expand n' (S i) (xor_word (nth 7 ws zero_word) temp :: ws)
  end.

Fixpoint words_of_bytes (bs : list byte) : list word :=
  match bs with
  | a :: b :: c :: d :: r => (a, b, c, d) :: words_of_bytes r
  | _ => []
  end.

Fixpoint blocks_of_words (ws : list word) : list block :=
  match ws with
  | a :: b :: c :: d :: r => (a, b, c, d) :: blocks_of_words r
  | _ => []
  end.

(** The 15 round keys of a 32-byte key. *)
Definition KeyExpansion (key : list byte) : list block :=
  blocks_of_words (rev (expand 52 8 (rev (words_of_bytes key)))).

(** **** The cipher and its inverse *)

(** All rounds after the initial AddRoundKey; the last one has no
    MixColumns. *)
Fixpoint rounds (ks : list block) (s : block) : block :=
  match ks with
  | [] => s
  | [k] => AddRoundKey k (ShiftRows (SubBytes s))
  | k :: ks' => rounds ks' (AddRoundKey k (MixColumns (ShiftRows (SubBytes s))))
  end.

Definition Cipher (ks : list block) (s : block) : block :=
  match ks with
  | [] => s
  | k0 :: ks' => rounds ks' (AddRoundKey k0 s)
  end.

Fixpoint inv_rounds (ks : list block) (s : block) : block :=
  match ks with
  | [] => s
  | [k] => InvSubBytes (InvShiftRows (AddRoundKey k s))
  | k :: ks' =>
      InvSubBytes (InvShiftRows (InvMixColumns (AddRoundKey k (inv_rounds ks' s))))
  end.

Definition InvCipher (ks : list block) (s : block) : block :=
  match ks with
  | [] => s
  | k0 :: ks' => AddRoundKey k0 (inv_rounds ks' s)
  end.

(** **** Blocks and bytes, padding, CBC *)

Definition bytes_of_word (w : word) : list byte :=
  let '(a, b, c, d) := w in [a; b; c; d].

Definition bytes_of_block (s : block) : list byte :=
  let '(c0, c1, c2, c3) := s in
  bytes_of_word c0 ++ bytes_of_word c1 ++ bytes_of_word c2 ++ bytes_of_word c3.

Definition blocks_of_bytes (bs : list byte) : list block :=
  blocks_of_words (words_of_bytes bs).

(** A buffer of exactly 16 bytes as a block. *)
Definition block_of_bytes (bs : list byte) : option block :=
  match blocks_of_bytes bs with
  | [s] => if Nat.eqb (length bs) 16 then Some s else None
  | _ => None
  end.

(** PKCS#7: between 1 and 16 bytes, each holding their number. *)
Definition pad (m : list byte) : list byte :=
  let n := (16 - length m mod 16)%nat in
  m ++ repeat (zb (Z.of_nat n)) n.

Definition unpad (m : list byte) : option (list byte) :=
  match last m with
  | None => None
  | Some b =>
      let n := Z.to_nat (bz b) in
      if (Nat.leb 1 n && Nat.leb n 16 && Nat.leb n (length m)
          && bool_decide (drop (length m - n) m = repeat b n))%nat
      then Some (take (length m - n) m)
      else None
  end.

Fixpoint cbc_encrypt (ks : list block) (prev : block) (ps : list block)
    : list block :=
  match ps with
  | [] => []
  | p :: ps' =>
      let c := Cipher ks (xor_block p prev) in
      c :: cbc_encrypt ks c ps'
  end.

Fixpoint cbc_decrypt (ks : list block) (prev : block) (cs : list block)
    : list block :=
  match cs with
  | [] => []
  | c :: cs' => xor_block (InvCipher ks c) prev :: cbc_decrypt ks c cs'
  end.

(** [cipher.update(data)] followed by [cipher.final()]. *)
Definition encrypt (key : list byte) (iv : block) (data : list byte) : list byte :=
  flat_map bytes_of_block
    (cbc_encrypt (KeyExpansion key) iv (blocks_of_bytes (pad data))).

(** [decipher.update(data)] followed by [decipher.final()], which
    throws on a length that is not a positive multiple of 16 and on
    bad padding. *)
Definition decrypt (key : list byte) (iv : block) (data : list byte)
    : option (list byte) :=
  if (Nat.eqb (length data) 0 || negb (Nat.eqb (length data mod 16) 0))%nat
  then None
  else unpad (flat_map bytes_of_block
                (cbc_decrypt (KeyExpansion key) iv (blocks_of_bytes data))).

End AES.

(** *** [encrypt] and [decrypt] *)

(** The key of both directions:
    [crypto.createHash('sha256').update(secret).digest()]. *)
Definition derive_key (secret : jsstring) : list byte :=
  SHA256.digest (utf8_encode secret).

(** [encrypt(text)]; [iv] stands for the 16 bytes [crypto.randomBytes]
    returns on this call. *)
Definition encrypt (secret : jsstring) (iv : AES.block) (text : jsstring) : jsstring :=
  let key := derive_key secret in
  let enc := AES.encrypt key iv (utf8_encode text) in
  hex_encode (AES.bytes_of_block iv) ++ [COLON] ++ hex_encode enc.

Definition TypeError (msg : string) : js_error := JsError None (js msg).
Definition CryptoError (msg : string) : js_error := JsError None (js msg).

(** What [decipher.final()] throws (the texts of OpenSSL 3, which
    Node.js 18 and later link): on a length that is not a positive
    multiple of 16, and on bad padding. *)
Definition final_error (data : list byte) : js_error :=
  if (Nat.eqb (length data) 0 || negb (Nat.eqb (length data mod 16) 0))%nat
  then CryptoError "error:1C80006B:Provider routines::wrong final block length"
  else CryptoError "error:1C800064:Provider routines::bad decrypt".

(** [decrypt(payload)]: the plaintext, or the error thrown. *)
Definition decrypt (secret : jsstring) (payload : jsstring) : jsstring + js_error :=
  match split_on COLON [] payload with
  | ivHex :: dataHex :: _ =>
      let iv := hex_decode ivHex in
      let data := hex_decode dataHex in
      let key := derive_key secret in
      match AES.block_of_bytes iv with
      | None => inr (TypeError "Invalid initialization vector")
      | Some iv =>
          match AES.decrypt key iv data with
          | Some dec => inl (utf8_decode dec)
          | None => inr (final_error data)
          end
      end
  | _ =>
      (* dataHex is undefined: [Buffer.from(undefined, 'hex')] *)
      inr (TypeError "The first argument must be of type string or an instance of Buffer, ArrayBuffer, or Array or an Array-like Object. Received undefined")
  end.

(** *** The [keys] object of the database *)

(** [db.data.keys] is a plain object.  Its own properties hold strings;
    a name it does not own is looked up on [Object.prototype]. *)
Inductive js_value :=
  | Str (s : jsstring)
  | Inherited.

Definition Object_prototype : list jsstring :=
  [js "constructor"; js "__defineGetter__"; js "__defineSetter__";
   js "hasOwnProperty"; js "__lookupGetter__"; js "__lookupSetter__";
   js "isPrototypeOf"; js "propertyIsEnumerable"; js "toString";
   js "valueOf"; js "__proto__"; js "toLocaleString"].

(** [keys[name]]; [None] is [undefined]. *)
Definition get_property (keys : gmap (list Z) (list Z)) (name : jsstring)
    : option js_value :=
  match keys !! name with
  | Some s => Some (Str s)
  | None => if bool_decide (name ∈ Object_prototype) then Some Inherited else None
  end.

(** [keys[name] = s] for a string [s].  Without an own property of that
    name, assigning to [__proto__] calls the setter of
    [Object.prototype], which ignores a value that is not an object. *)
Definition set_property (keys : gmap (list Z) (list Z)) (name : jsstring)
    (s : jsstring) : gmap (list Z) (list Z) :=
  if bool_decide (name = js "__proto__") && bool_decide (keys !! name = None)
  then keys
  else <[name := s]> keys.

(** The lowdb instance: the [keys] of the JSON file ([None] while the
    file does not exist) and of [db.data]. *)
Record db := Db {
  file : option (gmap (list Z) (list Z));
  data : gmap (list Z) (list Z)
}.

(** [ensureDb()]: [new Low(new JSONFile(dbFile), { keys: {} })] *)
Definition ensureDb (file : option (gmap (list Z) (list Z))) : db := Db file ∅.

(** [await db.read()] keeps [db.data] when there is no file. *)
Definition db_read (d : db) : db :=
  match file d with
  | Some k => Db (file d) k
  | None => d
  end.

(** [await db.write()] *)
Definition db_write (d : db) : db := Db (Some (data d)) (data d).

Definition setKey (secret : jsstring) (iv : AES.block) (provider apiKey : jsstring)
    (d : db) : db :=
  let d1 := db_read d in
  db_write (Db (file d1) (set_property (data d1) provider (encrypt secret iv apiKey))).

(** **** Masking *)

Definition is_line_terminator (c : Z) : bool :=
  bool_decide (c ∈ [0x0A; 0x0D; 0x2028; 0x2029]).

(** [.] of a regular expression without the [s] flag. *)
Definition dot (c : Z) : bool := negb (is_line_terminator c).

(** [(?=.{n})] at the start of [s]. *)
Fixpoint lookahead (n : nat) (s : jsstring) : bool :=
  match n with
  | O => true
  | S n' =>
      match s with
      | c :: r => dot c && lookahead n' r
      | [] => false
      end
  end.

Definition STAR : Z := 42.

(** [key.replace(/.(?=.{4})/g, '*')]: every match is one code unit
    long, so the positions are tried one after the other. *)
Fixpoint mask (key : jsstring) : jsstring :=
  match key with
  | [] => []
  | c :: r => (if dot c && lookahead 4 r then STAR else c) :: mask r
  end.

(** [getKey(provider, masked)]: [inl None] is [null], [inr] a rejection. *)
Definition getKey (secret : jsstring) (provider : jsstring) (masked : bool)
    (d : db) : option jsstring + js_error :=
  let d1 := db_read d in
  match get_property (data d1) provider with
  | None => inl None
  | Some (Str []) => inl None
  | Some (Str enc) =>
      match decrypt secret enc with
      | inl key => inl (Some (if masked then mask key else key))
      | inr e => inr e
      end
  | Some Inherited =>
      (* an object or a function has no [split]; the call is the
         right-hand side of an array destructuring *)
      inr (TypeError
             "payload.split is not a function or its return value is not iterable")
  end.

(** *** Progress values along a sequence of lines *)

(** The value a line stores when it matches: [Math.min(100,
    parseInt(m[1], 10))]. *)
Definition pct_of_line (line : jsstring) : option Z :=
  (fun m1 => Z.min 100 (parseInt m1)) <$> match_PROGRESS line.

Definition emitted (lines : list jsstring) : list Z := omap pct_of_line lines.


(** The registry keeps every progress value within [0, 100]. *)
Definition in_bounds (jobs : gmap (list Z) job) : Prop :=
  forall id j, jobs !! id = Some j -> 0 <= progress j <= 100.

(** The 256 bytes, for properties checked on every byte. *)
Definition all_bytes : list byte := map (fun n => zb (Z.of_nat n)) (seq 0 256).

(** *** Sample values *)

(** A block of sixteen bytes 00 01 .. 0f, standing for one outcome of
    [crypto.randomBytes(16)]. *)
Definition sample_iv : AES.block :=
  ((x00, x01, x02, x03), (x04, x05, x06, x07),
   (x08, x09, x0a, x0b), (x0c, x0d, x0e, x0f)).

(** The passphrase when [SECRET_PASSPHRASE] is not set. *)
Definition dev_secret : jsstring := js "dev-secret".

(** A fresh database in which one key has been saved. *)
Definition sample_db (provider apiKey : jsstring) : db :=
  setKey dev_secret sample_iv provider apiKey (ensureDb None).

(** ** The remaining routes and adapters *)

(** *** GET /api/transcribe/:jobId ([src/server/src/index.js], lines 134-138) *)

(** The answer to a poll: 404 with an error text, or 200 with the job
    as it is. *)
Inductive poll_response :=
  | PollNotFound (error : jsstring)
  | PollJob (j : job).

Definition get_transcribe (jobId : jsstring) (jobs : gmap (list Z) job)
    : poll_response :=
  match jobs !! jobId with
  | None => PollNotFound (js "job 不存在")
  | Some j => PollJob j
  end.

(** What the subprocess of [id] has written to its standard error in
    [evs], chunk after chunk. *)
Definition stderr_text (id : jsstring) (evs : list event) : jsstring :=
  flat_map (fun e => match e with
                     | Stderr i d => if bool_decide (i = id) then utf8_decode d else []
                     | _ => []
                     end) evs.

(** What the subprocess of [id] has written to its standard output in
    [evs], as the lines the handler has looped over. *)
Definition stdout_lines_of (id : jsstring) (evs : list event) : list jsstring :=
  flat_map (fun e => match e with
                     | Stdout i d => if bool_decide (i = id) then stdout_lines d else []
                     | _ => []
                     end) evs.

(** *** POST /api/keys and GET /api/keys/:provider
    ([src/server/src/index.js], lines 38-57) *)

(** [{ ok: true }], [{ provider, key }] ([key] may be [null]) or
    [{ error }] under a status code. *)
Inductive keys_response :=
  | KeysSaved
  | KeysMasked (provider : jsstring) (key : option jsstring)
  | KeysError (statusCode : Z) (error : jsstring).

(** [!x] for a body field that is absent or a string. *)
Definition falsy (x : option jsstring) : bool :=
  match x with
  | None | Some [] => true
  | Some _ => false
  end.

(** POST /api/keys, for a body whose [provider] and [apiKey] are absent
    or strings.  Reading and writing the database are taken to succeed,
    so that [setKey] does not reject. *)
Definition post_keys (secret : jsstring) (iv : AES.block)
    (provider apiKey : option jsstring) (d : db) : keys_response * db :=
  match provider, apiKey with
  | Some p, Some k =>
      if falsy provider || falsy apiKey
      then (KeysError 400 (js "provider 與 apiKey 必填"), d)
      else (KeysSaved, setKey secret iv p k d)
  | _, _ => (KeysError 400 (js "provider 與 apiKey 必填"), d)
  end.

(** GET /api/keys/:provider; [getKey] leaves [db.data] as read from the
    file. *)
Definition get_keys (secret : jsstring) (provider : jsstring) (d : db)
    : keys_response * db :=
  match getKey secret provider true d with
  | inl masked => (KeysMasked provider masked, db_read d)
  | inr e => (KeysError 500 (message e), db_read d)
  end.

(** *** Resolving an API key ([services/whisper.js], [services/openai.js],
    [services/google.js]) *)

(** [(await getKey(provider)) || process.env.NAME], then
    [if (!key) throw new Error(missing)]. *)
Definition resolve_key (secret : jsstring) (d : db) (env : gmap (list Z) (list Z))
    (provider : string) (name : string) (missing : string) : jsstring + js_error :=
  match getKey secret (js provider) false d with
  | inr e => inr e
  | inl stored =>
      match or_else (default [] stored) (default [] (env !! js name)) with
      | [] => inr (JsError None (js missing))
      | key => inl key
      end
  end.

(** Requests to the remote services. *)
Inductive api_call :=
  | OpenAITranscription (apiKey : jsstring) (model : jsstring)
      (buffer : list byte) (filename : jsstring)
  | OpenAIChat (apiKey : jsstring) (model : jsstring) (system user : jsstring)
  | GooglePost (url : jsstring) (text : jsstring).

(** *** [createWhisperTranscription] and [transcribeWithOpenAI]
    ([services/whisper.js]) *)

(** What [client.audio.transcriptions.create] resolves with: a string,
    an object (with its [text] when that is a string), or nothing. *)
Inductive transcription_response :=
  | RespString (s : jsstring)
  | RespObject (text : option jsstring)
  | RespNullish.

Module Whisper.

Record world := World {
  secret : jsstring;
  database : db;
  local : local_world;
  (** how the request to the remote service turns out *)
  openai : transcription_response + js_error
}.

Definition transcribeWithOpenAI (w : world) (fileBuffer : list byte)
    (filename : jsstring) : list api_call * (jsstring + js_error) :=
  match resolve_key (secret w) (database w) (l_env (local w))
          "openai" "OPENAI_API_KEY" "缺少 OpenAI API Key" with
  | inr e => ([], inr e)
  | inl key =>
      let call := OpenAITranscription key
                    (getenv (l_env (local w)) "WHISPER_MODEL" (js "whisper-1"))
                    fileBuffer filename in
      match openai w with
      | inr e => ([call], inr e)
      | inl (RespString s) => ([call], inl (trim s))
      | inl (RespObject (Some (c :: t))) => ([call], inl (trim (c :: t)))
      | inl (RespObject _) => ([call], inl (trim (js "[object Object]")))
      | inl RespNullish => ([call], inl (trim []))
      end
  end.

(** The calls made, local ones on the left and remote ones on the
    right, and the outcome. *)
Definition createWhisperTranscription (w : world) (fileBuffer : list byte)
    (filename : jsstring) : list (effect + api_call) * (jsstring + js_error) :=
  let mode := toLowerCase (getenv (l_env (local w)) "WHISPER_MODE" (js "api")) in
  if bool_decide (mode = js "local") then
    let r := transcribeLocal (local w) fileBuffer filename in
    (map inl r.1, r.2)
  else
    let r := transcribeWithOpenAI w fileBuffer filename in
    (map inr r.1, r.2).

End Whisper.

(** *** [analyzeWithOpenAI], [analyzeWithGoogle] and POST /api/analyze *)

Record analysis_world := AnalysisWorld {
  a_secret : jsstring;
  a_database : db;
  a_env : gmap (list Z) (list Z);
  (** [resp.choices?.[0]?.message?.content] when it is a string, or the
      error the request fails with *)
  chat_content : option jsstring + js_error;
  (** [resp.data?.candidates?.[0]?.content?.parts?.[0]?.text] when it
      is a string, or the error the request fails with *)
  google_text : option jsstring + js_error
}.

Definition SYSTEM_PROMPT : jsstring :=
  js "你是專業講師與教學設計助理，請生成結構化、清晰、可教學的內容。".

Definition analyzeWithOpenAI (w : analysis_world) (prompt : jsstring)
    : list api_call * (jsstring + js_error) :=
  match resolve_key (a_secret w) (a_database w) (a_env w)
          "openai" "OPENAI_API_KEY" "缺少 OpenAI API Key" with
  | inr e => ([], inr e)
  | inl key =>
      let call := OpenAIChat key (getenv (a_env w) "OPENAI_MODEL" (js "gpt-4o-mini"))
                    SYSTEM_PROMPT prompt in
      match chat_content w with
      | inr e => ([call], inr e)
      | inl content => ([call], inl (or_else (trim (default [] content)) []))
      end
  end.

(** The URL of the request, with the model and the key as they are. *)
Definition google_url (model key : jsstring) : jsstring :=
  js "https://generativelanguage.googleapis.com/v1beta/models/"
  ++ model ++ js ":generateContent?key=" ++ key.

Definition analyzeWithGoogle (w : analysis_world) (prompt : jsstring)
    : list api_call * (jsstring + js_error) :=
  match resolve_key (a_secret w) (a_database w) (a_env w)
          "google" "GOOGLE_API_KEY" "缺少 Google API Key" with
  | inr e => ([], inr e)
  | inl key =>
      let model := getenv (a_env w) "GOOGLE_MODEL" (js "gemini-2.5-flash") in
      let call := GooglePost (google_url model key) prompt in
      match google_text w with
      | inr e => ([call], inr e)
      | inl text => ([call], inl (trim (or_else (default [] text) [])))
      end
  end.

(** [{ result }] or [{ error }] under a status code. *)
Inductive analyze_response :=
  | AnalyzeResult (result : jsstring)
  | AnalyzeError (statusCode : Z) (error : jsstring).

(** POST /api/analyze, for a body whose [provider] and [text] are absent
    or strings.  [addNotePrefix] comes from [services/prompt.js], which
    is not part of the sources at hand: it is a parameter. *)
Definition post_analyze (addNotePrefix : jsstring -> jsstring)
    (w : analysis_world) (provider text : option jsstring)
    : list api_call * analyze_response :=
  match provider, text with
  | Some p, Some t =>
      if falsy provider || falsy text
      then ([], AnalyzeError 400 (js "provider 與 text 必填"))
      else
        let prompt := addNotePrefix t in
        let answer (r : list api_call * (jsstring + js_error)) :=
          match r.2 with
          | inl out => (r.1, AnalyzeResult out)
          | inr e => (r.1, AnalyzeError 500 (message e))
          end in
        if bool_decide (p = js "openai") then answer (analyzeWithOpenAI w prompt)
        else if bool_decide (p = js "google") then answer (analyzeWithGoogle w prompt)
        else ([], AnalyzeError 400 (js "未知 provider"))
  | _, _ => ([], AnalyzeError 400 (js "provider 與 text 必填"))
  end.

(** *** Auxiliary notions for the properties *)

(** The job an event is about. *)
Definition event_job (e : event) : jsstring :=
  match e with
  | Accept i | Stdout i _ | Stderr i _ | Close i _ _ => i
  end.

(** What the fields of a job look like in each status. *)
Definition well_shaped (j : job) : Prop :=
  match status j with
  | processing => result j = None ∧ error_msg j = None
  | done => progress j = 100 ∧ ∃ r, result j = Some r ∧ trim r = r
  | error => ∃ m, error_msg j = Some m
  end.

(** A lower-case hex digit or the colon. *)
Definition is_hex_or_colon (c : Z) : bool :=
  is_digit c || ((97 <=? c) && (c <=? 102)) || (c =? COLON).

(** Neither a stored key (or an empty one) nor a usable environment
    variable for a provider. *)
Definition no_key (secret : jsstring) (d : db) (env : gmap (list Z) (list Z))
    (provider variable : string) : Prop :=
  (getKey secret (js provider) false d = inl None ∨
   getKey secret (js provider) false d = inl (Some [])) ∧
  (env !! js variable = None ∨ env !! js variable = Some []).

(** * Properties *)

(** ** The modelled built-ins on known values *)

Example utf8_decode_literal :
  js "僅支援 mp3" = [0x50C5; 0x652F; 0x63F4; 32; 109; 112; 51].
Proof. vm_compute. reflexivity. Qed.

(** An ill-formed sequence gives one U+FFFD for each maximal prefix of
    a sequence; the byte that broke it is read again. *)
Example utf8_decode_ill_formed :
  utf8_decode [xf0; x9f; x98; x80; xed; xa0; x80; xe2; x82; x41]
  = [0xD83D; 0xDE00; 0xFFFD; 0xFFFD; 0xFFFD; 0xFFFD; 0x41].
Proof. vm_compute. reflexivity. Qed.

Example utf8_encode_lone_surrogate :
  utf8_encode [0x61; 0xD800; 0x62] = [x61; xef; xbf; xbd; x62].
Proof. vm_compute. reflexivity. Qed.

Example trim_both_ends : trim (js "  done text" ++ [10]) = js "done text".
Proof. vm_compute. reflexivity. Qed.

Example split_lines :
  stdout_lines (list_byte_of_string "PROGRESS 5" ++ [x0a; x0a]
                ++ list_byte_of_string "loading" ++ [x0a])
  = [js "PROGRESS 5"; js "loading"].
Proof. vm_compute. reflexivity. Qed.

Example match_PROGRESS_samples :
  map match_PROGRESS
    [js "PROGRESS 5"; js "xx PROGRESS 1000"; js "PROGRESS x PROGRESS 042";
     js "PROGRESS"; js "progress 7"]
  = [Some (js "5"); Some (js "100"); Some (js "042"); None; None].
Proof. vm_compute. reflexivity. Qed.

(** FIPS 180-4 sample: the digest of the three bytes "abc". *)
Example sha256_abc :
  hex_encode (SHA256.digest (list_byte_of_string "abc"))
  = js "ba7816bf8f01cfea414140de5dae2223b00361a396177a9cb410ff61f20015ad".
Proof. vm_compute. reflexivity. Qed.

(** FIPS 197, appendix C.3: AES-256 on one block. *)
Example aes256_fips197 :
  let key := hex_decode
    (js "000102030405060708090a0b0c0d0e0f101112131415161718191a1b1c1d1e1f") in
  let plain := hex_decode (js "00112233445566778899aabbccddeeff") in
  hex_encode (flat_map AES.bytes_of_block
                (map (AES.Cipher (AES.KeyExpansion key)) (AES.blocks_of_bytes plain)))
  = js "8ea2b7ca516745bfeafc49904b496089".
Proof. vm_compute. reflexivity. Qed.

Example sbox_corners :
  map AES.sub [x00; x01; x53; xff] = [x63; x7c; xed; x16].
Proof. vm_compute. reflexivity. Qed.

Example mask_samples :
  map mask [js "sk-abc123"; js "abcd"; js "ab" ++ [10] ++ js "cdefgh"]
  = [js "*****c123"; js "abcd"; js "ab" ++ [10] ++ js "**efgh"].
Proof. vm_compute. reflexivity. Qed.

(** The scenario of a local-mode job: accepted, one progress line,
    then exit code 0 with the transcript in the output file. *)
Example local_job_scenario :
  let id := js "7d4c" in
  let s1 := run init [Accept id] in
  let s2 := run s1 [Stdout id (list_byte_of_string "PROGRESS 50" ++ [x0a])] in
  let s3 := run s2 [Close id (Some 0) (inl (js "done text" ++ [10]))] in
  jobs s1 !! id = Some (Job processing 0 None None) ∧
  jobs s2 !! id = Some (Job processing 50 None None) ∧
  jobs s3 !! id = Some (Job done 100 (Some (js "done text")) None).
Proof. vm_compute. done. Qed.

(** ** The job registry *)

Section Registry.
Implicit Types (jobs : gmap (list Z) job) (id : list Z) (tr : list event).

Lemma updateProgress_other id id' pct jobs :
  id ≠ id' → updateProgress id pct jobs !! id' = jobs !! id'.
Proof.
  intros Hne. unfold updateProgress.
  destruct (jobs !! id) as [j|]; [|done].
  destruct (status j); [|done..]. by rewrite lookup_insert_ne.
Qed.

(** The only field [updateProgress] touches is [progress], and only
    of a job that is still processing. *)
Lemma updateProgress_lookup id pct jobs :
  updateProgress id pct jobs !! id =
  (λ j, match status j with
        | processing => Job processing pct (result j) (error_msg j)
        | _ => j
        end) <$> jobs !! id.
Proof.
  unfold updateProgress. destruct (jobs !! id) as [j|] eqn:E; simpl; [|by rewrite E].
  destruct (status j) eqn:S; [by rewrite lookup_insert_eq| |]; by rewrite E.
Qed.

Lemma updateProgress_terminal id pct jobs j :
  jobs !! id = Some j → terminal (status j) = true →
  updateProgress id pct jobs = jobs.
Proof.
  intros E T. unfold updateProgress. rewrite E. by destruct (status j).
Qed.

Lemma updateProgress_status id id' pct jobs :
  status <$> updateProgress id pct jobs !! id' = status <$> jobs !! id'.
Proof.
  destruct (decide (id = id')) as [<-|Hne].
  - rewrite updateProgress_lookup. destruct (jobs !! id) as [j|]; [|done].
    simpl. destruct (status j) eqn:S; simpl; by rewrite ?S.
  - by rewrite updateProgress_other.
Qed.

Lemma on_line_status id id' jobs line :
  status <$> on_line id jobs line !! id' = status <$> jobs !! id'.
Proof.
  unfold on_line. destruct (match_PROGRESS line); [|done].
  apply updateProgress_status.
Qed.

Lemma on_line_terminal id jobs line j :
  jobs !! id = Some j → terminal (status j) = true → on_line id jobs line = jobs.
Proof.
  intros E T. unfold on_line. destruct (match_PROGRESS line); [|done].
  by eapply updateProgress_terminal.
Qed.

Lemma on_line_other id id' jobs line :
  id ≠ id' → on_line id jobs line !! id' = jobs !! id'.
Proof.
  intros Hne. unfold on_line. destruct (match_PROGRESS line); [|done].
  by apply updateProgress_other.
Qed.

Lemma fold_on_line_status id id' lines jobs :
  status <$> fold_left (on_line id) lines jobs !! id' = status <$> jobs !! id'.
Proof.
  revert jobs. induction lines as [|l lines IH]; intros jobs; [done|].
  simpl. rewrite IH. apply on_line_status.
Qed.

Lemma fold_on_line_terminal id lines jobs j :
  jobs !! id = Some j → terminal (status j) = true →
  fold_left (on_line id) lines jobs = jobs.
Proof.
  intros E T. induction lines as [|l lines IH]; [done|].
  simpl. by rewrite (on_line_terminal _ _ _ _ E T).
Qed.

Lemma on_stdout_status id id' d jobs :
  status <$> on_stdout id d jobs !! id' = status <$> jobs !! id'.
Proof. apply fold_on_line_status. Qed.

Lemma on_close_other id id' code out stderr jobs :
  id ≠ id' → on_close id code out stderr jobs !! id' = jobs !! id'.
Proof.
  intros Hne. unfold on_close. destruct (jobs !! id) as [j|]; [|done].
  case_bool_decide; [destruct out|]; by rewrite lookup_insert_ne.
Qed.

Lemma on_close_is_Some id id' code out stderr jobs :
  is_Some (on_close id code out stderr jobs !! id') ↔ is_Some (jobs !! id').
Proof.
  destruct (decide (id = id')) as [<-|Hne]; [|by rewrite on_close_other].
  unfold on_close. destruct (jobs !! id) as [j|] eqn:E; [|by rewrite E].
  case_bool_decide; [destruct out|]; rewrite lookup_insert_eq;
    split; eauto.
Qed.

Lemma run_snoc s tr e : run s (tr ++ [e]) = step (run s tr) e.
Proof. unfold run. by rewrite fold_left_app. Qed.

Lemma run_app s tr1 tr2 : run s (tr1 ++ tr2) = run (run s tr1) tr2.
Proof. unfold run. by rewrite fold_left_app. Qed.

Lemma count_app p tr1 tr2 :
  count p (tr1 ++ tr2) = (count p tr1 + count p tr2)%nat.
Proof. unfold count. by rewrite filter_app, length_app. Qed.

Lemma count_cons p e tr :
  count p (e :: tr) = ((if p e then 1 else 0) + count p tr)%nat.
Proof.
  unfold count. rewrite filter_cons. destruct (p e); by case_decide.
Qed.

(** A job that exists has been accepted. *)
Lemma exists_accepted id tr :
  is_Some (jobs (run init tr) !! id) → (1 ≤ count (accepts id) tr)%nat.
Proof.
  induction tr as [|e tr IH] using rev_ind.
  - simpl. rewrite lookup_empty. by intros [? ?].
  - rewrite run_snoc, count_app, count_cons. destruct e as [i|i d|i d|i c o]; simpl.
    + case_bool_decide; [lia|]. rewrite lookup_insert_ne by done.
      intros Hs. apply IH in Hs. lia.
    + rewrite <- !fmap_is_Some with (f := status), on_stdout_status, fmap_is_Some.
      intros Hs. apply IH in Hs. lia.
    + intros Hs. apply IH in Hs. lia.
    + rewrite on_close_is_Some. intros Hs. apply IH in Hs. lia.
Qed.

(** A job in a terminal state has seen its subprocess closed. *)
Lemma terminal_closed id tr st :
  status_of id (run init tr) = Some st → terminal st = true →
  (1 ≤ count (closes id) tr)%nat.
Proof.
  unfold status_of. revert st.
  induction tr as [|e tr IH] using rev_ind; intros st.
  - simpl. by rewrite lookup_empty.
  - rewrite run_snoc, count_app, count_cons. destruct e as [i|i d|i d|i c o]; simpl.
    + destruct (decide (i = id)) as [->|Hne].
      * rewrite lookup_insert_eq. simpl. by intros [= <-].
      * rewrite lookup_insert_ne by done. intros Hs T.
        specialize (IH _ Hs T). lia.
    + rewrite on_stdout_status. intros Hs T. specialize (IH _ Hs T). lia.
    + intros Hs T. specialize (IH _ Hs T). lia.
    + case_bool_decide; [lia|]. rewrite on_close_other by done.
      intros Hs T. specialize (IH _ Hs T). lia.
Qed.

(** Without a new acceptance or close for [id], its status stays. *)
Lemma status_stable id tr s :
  count (accepts id) tr = 0%nat → count (closes id) tr = 0%nat →
  status_of id (run s tr) = status_of id s.
Proof.
  unfold status_of. revert s. induction tr as [|e tr IH]; intros s; [done|].
  rewrite !count_cons. intros Ha Hc. simpl. rewrite IH by lia.
  destruct e as [i|i d|i d|i c o]; simpl in *.
  - case_bool_decide; [lia|]. by rewrite lookup_insert_ne.
  - apply on_stdout_status.
  - done.
  - case_bool_decide; [lia|]. by rewrite on_close_other.
Qed.
End Registry.

(** [C1] A freshly created job has status ['processing'] and progress 0.
    A progress update on a job whose status is ['done'] or ['error']
    changes nothing: [updateProgress] and the whole stdout handler leave
    the registry as it is.  And along every history of the registry in
    which an identifier is accepted at most once (it is a fresh UUID)
    and its subprocess is closed at most once (the runtime emits
    ['close'] once per subprocess), a status ['done'] or ['error'], once
    reached, is the status after every later event. *)
Theorem C1_terminal_status_is_final :
  (status new_job = processing ∧ progress new_job = 0) ∧
  (∀ (id : list Z) (pct : Z) (jobs : gmap (list Z) job) (j : job),
     jobs !! id = Some j → terminal (status j) = true →
     updateProgress id pct jobs = jobs) ∧
  (∀ (id : list Z) (d : list byte) (jobs : gmap (list Z) job) (j : job),
     jobs !! id = Some j → terminal (status j) = true →
     on_stdout id d jobs = jobs) ∧
  (∀ (id : list Z) (pre post : list event) (st : job_status),
     (count (accepts id) (pre ++ post) ≤ 1)%nat →
     (count (closes id) (pre ++ post) ≤ 1)%nat →
     status_of id (run init pre) = Some st → terminal st = true →
     status_of id (run init (pre ++ post)) = Some st).
Proof.
  split_and!; [done..| | |].
  - apply updateProgress_terminal.
  - intros id d jobs j E T. by eapply fold_on_line_terminal.
  - intros id pre post st Ha Hc E T. rewrite !count_app in *.
    assert (1 ≤ count (accepts id) pre)%nat.
    { apply exists_accepted. unfold status_of in E.
      destruct (jobs (run init pre) !! id); [eauto|done]. }
    pose proof (terminal_closed _ _ _ E T).
    rewrite run_app, status_stable by lia. done.
Qed.

Lemma C1_witness :
  let j1 := js "7d4c" in
  status_of j1
    (run init ([Accept j1; Stdout j1 (list_byte_of_string "PROGRESS 40");
                Close j1 (Some 0) (inl (js "hello "))]
               ++ [Stdout j1 (list_byte_of_string "PROGRESS 70");
                   Stderr j1 (list_byte_of_string "late")]))
  = Some done.
Proof.
  apply (proj2 (proj2 (proj2 C1_terminal_status_is_final))).
  - vm_compute. lia.
  - vm_compute. lia.
  - vm_compute. reflexivity.
  - reflexivity.
Defined.

(** *** Parsed values *)

Lemma take_digits_spec n s :
  Forall (λ c, is_digit c = true) (take_digits n s) ∧
  (length (take_digits n s) ≤ n)%nat.
Proof.
  revert s. induction n as [|n IH]; intros [|c r]; simpl; try (split; [constructor|lia]).
  destruct (is_digit c) eqn:D; simpl; [|split; [constructor|lia]].
  destruct (IH r) as [F L]. split; [by constructor|lia].
Qed.

Lemma match_PROGRESS_digits line m1 :
  match_PROGRESS line = Some m1 →
  Forall (λ c, is_digit c = true) m1 ∧ (1 ≤ length m1 ≤ 3)%nat.
Proof.
  induction line as [|c r IH]; [done|]. cbn [match_PROGRESS].
  destruct (strip_prefix _ _) as [after|]; [|exact IH].
  pose proof (take_digits_spec 3 after) as [F L].
  destruct (take_digits 3 after) as [|x xs] eqn:E; [exact IH|].
  intros [= <-]. split; [done|simpl in *; lia].
Qed.

Lemma parseInt_digits_acc s acc :
  Forall (λ c, is_digit c = true) s → 0 ≤ acc →
  0 ≤ fold_left (λ a c, a * 10 + (c - 48)) s acc.
Proof.
  intros F. revert acc. induction F as [|c s D F IH]; intros acc Hacc; [done|].
  simpl. apply IH. unfold is_digit in D. lia.
Qed.

Lemma pct_range m1 :
  Forall (λ c, is_digit c = true) m1 → 0 ≤ Z.min 100 (parseInt m1) ≤ 100.
Proof.
  intros F. pose proof (parseInt_digits_acc m1 0 F). unfold parseInt. lia.
Qed.

Lemma pct_of_line_range line p : pct_of_line line = Some p → 0 ≤ p ≤ 100.
Proof.
  unfold pct_of_line. destruct (match_PROGRESS line) as [m1|] eqn:E; [|done].
  intros [= <-]. apply pct_range. by apply match_PROGRESS_digits in E as [? _].
Qed.

(** *** Bounds are preserved by every handler *)

Lemma updateProgress_in_bounds id pct jobs :
  0 ≤ pct ≤ 100 → in_bounds jobs → in_bounds (updateProgress id pct jobs).
Proof.
  intros Hp Hb i j. destruct (decide (id = i)) as [<-|Hne].
  - rewrite updateProgress_lookup. destruct (jobs !! id) as [j0|] eqn:E; [|done].
    simpl. intros [= <-]. destruct (status j0); simpl; eauto.
  - rewrite updateProgress_other by done. apply Hb.
Qed.

Lemma on_line_in_bounds id jobs line :
  in_bounds jobs → in_bounds (on_line id jobs line).
Proof.
  intros Hb. unfold on_line.
  destruct (match_PROGRESS line) as [m1|] eqn:E; [|done].
  apply updateProgress_in_bounds; [|done].
  apply pct_range. by apply match_PROGRESS_digits in E as [? _].
Qed.

Lemma on_stdout_in_bounds id d jobs :
  in_bounds jobs → in_bounds (on_stdout id d jobs).
Proof.
  unfold on_stdout. generalize (stdout_lines d) as lines. intros lines. revert jobs.
  induction lines as [|l lines IH]; intros jobs Hb; [done|].
  simpl. apply IH. by apply on_line_in_bounds.
Qed.

Lemma on_close_in_bounds id code out stderr jobs :
  in_bounds jobs → in_bounds (on_close id code out stderr jobs).
Proof.
  intros Hb i j. destruct (decide (id = i)) as [<-|Hne].
  - unfold on_close. destruct (jobs !! id) as [j0|] eqn:E; [|by rewrite E].
    specialize (Hb _ _ E).
    case_bool_decide; [destruct out|]; rewrite lookup_insert_eq;
      intros [= <-]; simpl; lia.
  - rewrite on_close_other by done. apply Hb.
Qed.

Lemma step_in_bounds s e : in_bounds (jobs s) → in_bounds (jobs (step s e)).
Proof.
  intros Hb. destruct e as [i|i d|i d|i c o]; simpl.
  - intros k j. destruct (decide (i = k)) as [->|Hne].
    + rewrite lookup_insert_eq. intros [= <-]. simpl. lia.
    + rewrite lookup_insert_ne by done. apply Hb.
  - by apply on_stdout_in_bounds.
  - done.
  - by apply on_close_in_bounds.
Qed.

Lemma run_in_bounds tr : in_bounds (jobs (run init tr)).
Proof.
  induction tr as [|e tr IH] using rev_ind.
  - intros id j. simpl. by rewrite lookup_empty.
  - rewrite run_snoc. by apply step_in_bounds.
Qed.

(** [C7] The progress of a job starts at 0; a line that matches the
    PROGRESS pattern stores [min(100, n)], which lies in [0, 100];
    completion (exit code 0 and a readable output file) sets it to
    exactly 100; and after any history of the registry every job has
    its progress in [0, 100]. *)
Theorem C7_progress_within_0_100 :
  progress new_job = 0 ∧
  (∀ (id : list Z) (jobs : gmap (list Z) job) (line m1 : list Z),
     match_PROGRESS line = Some m1 →
     on_line id jobs line = updateProgress id (Z.min 100 (parseInt m1)) jobs ∧
     0 ≤ Z.min 100 (parseInt m1) ≤ 100) ∧
  (∀ (id : list Z) (jobs : gmap (list Z) job) (j : job) (text stderr : list Z),
     jobs !! id = Some j →
     progress <$> on_close id (Some 0) (inl text) stderr jobs !! id = Some 100) ∧
  (∀ (tr : list event) (id : list Z) (j : job),
     jobs (run init tr) !! id = Some j → 0 ≤ progress j ≤ 100).
Proof.
  split_and!.
  - done.
  - intros id jobs line m1 E. unfold on_line. rewrite E. split; [done|].
    apply pct_range. by apply match_PROGRESS_digits in E as [? _].
  - intros id jobs j text stderr E. unfold on_close. rewrite E.
    rewrite bool_decide_eq_true_2 by done. by rewrite lookup_insert_eq.
  - intros tr. apply run_in_bounds.
Qed.

Lemma C7_witness :
  let j1 := js "7d4c" in
  let tr := [Accept j1; Stdout j1 (list_byte_of_string "PROGRESS 999")] in
  0 ≤ progress (Job processing 100 None None) ≤ 100.
Proof.
  intros j1 tr.
  apply (proj2 (proj2 (proj2 C7_progress_within_0_100)) tr j1).
  vm_compute. reflexivity.
Defined.

(** *** Progress follows the emitted values *)

Lemma emitted_cons l lines :
  emitted (l :: lines)
  = match pct_of_line l with Some p => p :: emitted lines | None => emitted lines end.
Proof. reflexivity. Qed.








(** ** POST /api/transcribe *)

(** [C8] An upload whose MIME type is not one of the six allowed ones
    is answered with 400 and nothing else happens: no transcription
    call, no subprocess, no job, whatever the mode and the rest of the
    environment. *)
Theorem C8_bad_mime_rejected (w : world) (f : upload) (jobs : gmap (list Z) job) :
  mimetype f ∉ okMimes →
  effects (post_transcribe w (Some f) jobs)
    = [SendJson 400 [("error"%string, js "僅支援 mp3 或 wav")]] ∧
  existsb is_Transcribe (effects (post_transcribe w (Some f) jobs)) = false ∧
  existsb is_Spawn (effects (post_transcribe w (Some f) jobs)) = false ∧
  jobs_after (post_transcribe w (Some f) jobs) = jobs ∧
  watching (post_transcribe w (Some f) jobs) = None.
Proof.
  intros Hm. unfold post_transcribe.
  rewrite bool_decide_eq_false_2 by done. simpl. done.
Qed.

Lemma C8_witness :
  let local := World {[js "WHISPER_MODE" := js "local"]} (js "/tmp") (js "/srv")
                 (js "7d4c") (inl (js "hi")) None None in
  let remote := World ∅ (js "/tmp") (js "/srv") (js "7d4c") (inl (js "hi")) None None in
  let f := Upload (js "video/mp4") (js "clip.mp4") [x00; x01] in
  jobs_after (post_transcribe local (Some f) ∅) = ∅ ∧
  existsb is_Transcribe (effects (post_transcribe remote (Some f) ∅)) = false.
Proof.
  intros local remote f.
  assert (Hm : mimetype f ∉ okMimes).
  { apply (bool_decide_eq_false_1 (mimetype f ∈ okMimes)). vm_compute. reflexivity. }
  split.
  - apply (C8_bad_mime_rejected local f ∅ Hm).
  - apply (C8_bad_mime_rejected remote f ∅ Hm).
Defined.

(** The close handler does record a failure of the subprocess or of
    reading its output in the job. *)
Lemma close_failure_recorded (id : list Z) (code : option Z) (out : read_result)
    (stderr : list Z) (jobs : gmap (list Z) job) (j : job) :
  jobs !! id = Some j →
  code ≠ Some 0 ∨ (∃ message, out = inr message) →
  ∃ message,
    on_close id code out stderr jobs !! id
    = Some (Job error (progress j) (result j) (Some message)).
Proof.
  intros E H. unfold on_close. rewrite E. case_bool_decide as Hc.
  - destruct H as [H|[m ->]]; [done|]. rewrite lookup_insert_eq. eauto.
  - rewrite lookup_insert_eq. eauto.
Qed.

(** [C4] at a failing input.  In local mode, when writing the uploaded
    audio to its temporary file fails (here the name is too long), the
    job has been registered and the response with its identifier sent;
    the failure goes to the handler's [catch], no subprocess is spawned
    and no handler watches the job: it stays ['processing'] with
    [error] null, whatever happens afterwards. *)
Theorem C4_write_failure_not_recorded (evs : list event) :
  let w := World {[js "WHISPER_MODE" := js "local"]} (js "/tmp") (js "/srv")
             (js "7d4c") (inl [])
             (Some (JsError None (js "ENAMETOOLONG: name too long, open"))) None in
  let f := Upload (js "audio/wav") (repeat 97 300 ++ js ".wav") [x00; x01] in
  jobs (background w f evs init) !! js "7d4c" = Some (Job processing 0 None None) ∧
  watching (post_transcribe w (Some f) ∅) = None ∧
  existsb is_Spawn (effects (post_transcribe w (Some f) ∅)) = false ∧
  last (effects (post_transcribe w (Some f) ∅))
    = Some (SendJson 500 [("error"%string, js "ENAMETOOLONG: name too long, open")]).
Proof. vm_compute. done. Qed.

(** ** [transcribeLocal] *)

(** [C5], as the code has it.  Once the audio is written: on exit code
    0 the output file is read, both temporary files are unlinked (the
    outcome of the unlinks is ignored) and the trimmed text is
    returned; on any other code the call fails with the captured
    standard error (or [python exited <code>] when that is empty)
    straight away, and no unlink is attempted. *)
Theorem C5_cleanup_only_after_exit_0 (w : local_world) (buf : list byte)
    (filename : list Z) :
  l_writeFile w = None →
  (ps_code w = Some 0 →
     (∃ before,
        (transcribeLocal w buf filename).1
        = before ++ [ReadFile (tmpOut_path w);
                     Unlink (tmpAudio_path w filename);
                     Unlink (tmpOut_path w)]
        ∧ existsb is_Unlink before = false) ∧
     (transcribeLocal w buf filename).2
     = inl (trim (match l_readFile w with inl t => t | inr _ => [] end))) ∧
  (ps_code w ≠ Some 0 →
     existsb is_Unlink (transcribeLocal w buf filename).1 = false ∧
     (transcribeLocal w buf filename).2 = inr (JsError None (exit_message w))).
Proof.
  intros Hw. unfold transcribeLocal. rewrite Hw. split; intros Hc.
  - rewrite bool_decide_eq_true_2 by done. simpl. split; [|done]. by eexists [_; _].
  - rewrite bool_decide_eq_false_2 by done. done.
Qed.

Lemma C5_witness :
  let w := LocalWorld ∅ (js "/tmp") (js "/srv") 1700000000000 1700000000001 None
             [list_byte_of_string "warn"] (Some 0) (inl (js " hello ")) (λ _, true) in
  (transcribeLocal w [x00] (js "a.wav")).2 = inl (js "hello").
Proof.
  intros w.
  destruct (C5_cleanup_only_after_exit_0 w [x00] (js "a.wav") eq_refl) as [Hok _].
  destruct (Hok eq_refl) as [_ Hres]. rewrite Hres. vm_compute. reflexivity.
Defined.

(** The claim as the specification words it fails: a call that fails
    with the standard-error text has unlinked nothing. *)
Lemma C5_counterexample :
  ¬ (∀ (w : local_world) (buf : list byte) (filename : list Z),
       l_writeFile w = None →
       Unlink (tmpAudio_path w filename) ∈ (transcribeLocal w buf filename).1 ∧
       Unlink (tmpOut_path w) ∈ (transcribeLocal w buf filename).1).
Proof.
  intros H.
  destruct (H (LocalWorld ∅ (js "/tmp") (js "/srv") 1700000000000 1700000000001 None
                 [list_byte_of_string "CUDA out of memory"] (Some 1)
                 (inr (js "ENOENT")) (λ _, false))
              [x00] (js "a.wav") eq_refl) as [_ Hout].
  vm_compute in Hout.
  repeat (apply elem_of_cons in Hout as [Hout|Hout]; [discriminate|]).
  by apply elem_of_nil in Hout.
Qed.

(** [C10] With exit code 0 and an output file that cannot be read, the
    call returns the empty string. *)
Theorem C10_unreadable_output_gives_empty (w : local_world) (buf : list byte)
    (filename : list Z) (e : list Z) :
  l_writeFile w = None → ps_code w = Some 0 → l_readFile w = inr e →
  (transcribeLocal w buf filename).2 = inl [].
Proof.
  intros Hw Hc Hr. unfold transcribeLocal. rewrite Hw, Hr.
  by rewrite bool_decide_eq_true_2.
Qed.

Lemma C10_witness :
  let w := LocalWorld ∅ (js "/tmp") (js "/srv") 1700000000000 1700000000001 None
             [] (Some 0) (inr (js "ENOENT: no such file or directory")) (λ _, false) in
  (transcribeLocal w [x00] (js "a.wav")).2 = inl [].
Proof.
  intros w.
  apply (C10_unreadable_output_gives_empty w [x00] (js "a.wav")
           (js "ENOENT: no such file or directory")); reflexivity.
Defined.

(** ** The credential store: masking *)

Lemma lookahead_length n s : lookahead n s = true → (n ≤ length s)%nat.
Proof.
  revert s. induction n as [|n IH]; intros s; simpl; [lia|].
  destruct s as [|c r]; [done|]. intros [_ H]%andb_prop. apply IH in H. simpl. lia.
Qed.

Lemma lookahead_dots n s :
  forallb dot s = true → (n ≤ length s)%nat → lookahead n s = true.
Proof.
  revert s. induction n as [|n IH]; intros s; simpl; [done|].
  destruct s as [|c r]; simpl; [lia|]. intros [-> H]%andb_prop L.
  apply IH; [done|lia].
Qed.

Lemma mask_short key : (length key ≤ 4)%nat → mask key = key.
Proof.
  induction key as [|c r IH]; [done|]. cbn [mask length]. intros L.
  rewrite IH by lia. destruct (lookahead 4 r) eqn:H.
  - apply lookahead_length in H. lia.
  - by rewrite andb_false_r.
Qed.

Lemma mask_length key : length (mask key) = length key.
Proof. induction key as [|c r IH]; simpl; [done|]. by rewrite IH. Qed.

Lemma mask_keeps_last_4 key :
  drop (length key - 4) (mask key) = drop (length key - 4) key.
Proof.
  induction key as [|c r IH]; [done|].
  destruct (decide (length r < 4)%nat) as [L|L].
  - rewrite mask_short by (simpl; lia). done.
  - cbn [mask length]. replace (S (length r) - 4)%nat with (S (length r - 4)) by lia.
    exact IH.
Qed.

Lemma mask_dots key :
  forallb dot key = true →
  take (length key - 4) (mask key) = repeat STAR (length key - 4).
Proof.
  induction key as [|c r IH]; [done|]. cbn [forallb]. intros [Hc Hr]%andb_prop.
  destruct (decide (length r < 4)%nat) as [L|L].
  - cbn [length]. by replace (S (length r) - 4)%nat with 0%nat by lia.
  - cbn [mask length]. replace (S (length r) - 4)%nat with (S (length r - 4)) by lia.
    rewrite Hc, lookahead_dots by (done || lia). simpl. by rewrite IH.
Qed.

(** The masked answer is the mask of the plain one. *)
Lemma getKey_masked secret provider d key :
  getKey secret provider false d = inl (Some key) →
  getKey secret provider true d = inl (Some (mask key)).
Proof.
  unfold getKey. destruct (get_property _ _) as [[[|c enc]|]|]; try done.
  destruct (decrypt secret (c :: enc)); [|done]. by intros [= ->].
Qed.

(** [X22] What the masked answer keeps and hides.  For a stored key
    longer than 4 characters it has the length of the key and ends with
    its last 4 characters; when the key contains no line terminator,
    every character before the last 4 is a star. *)
Theorem masked_key_without_line_terminators (secret provider : list Z) (d : db) (key : list Z) :
  getKey secret provider false d = inl (Some key) → (4 < length key)%nat →
  ∃ masked : list Z,
    getKey secret provider true d = inl (Some masked) ∧
    length masked = length key ∧
    drop (length key - 4) masked = drop (length key - 4) key ∧
    (forallb dot key = true →
     take (length key - 4) masked = repeat STAR (length key - 4)).
Proof.
  intros G L. exists (mask key). split_and!.
  - by apply getKey_masked.
  - apply mask_length.
  - apply mask_keeps_last_4.
  - apply mask_dots.
Qed.

(** [C9] A stored key of at most 4 characters is returned whole. *)
Theorem C9_short_key_unmasked (secret provider : list Z) (d : db) (key : list Z) :
  getKey secret provider false d = inl (Some key) → (length key ≤ 4)%nat →
  getKey secret provider true d = inl (Some key).
Proof.
  intros G L. rewrite (getKey_masked _ _ _ _ G). by rewrite mask_short.
Qed.

Lemma masked_key_without_line_terminators_witness :
  ∃ masked : list Z,
    getKey dev_secret (js "openai") true (sample_db (js "openai") (js "sk-abc123"))
    = inl (Some masked) ∧
    length masked = 9%nat ∧
    drop 5 masked = js "c123" ∧
    (forallb dot (js "sk-abc123") = true → take 5 masked = repeat STAR 5).
Proof.
  apply (masked_key_without_line_terminators dev_secret (js "openai")
           (sample_db (js "openai") (js "sk-abc123")) (js "sk-abc123")).
  - vm_compute. reflexivity.
  - vm_compute. lia.
Defined.

Lemma C9_witness :
  getKey dev_secret (js "google") true (sample_db (js "google") (js "k-12"))
  = inl (Some (js "k-12")).
Proof.
  apply (C9_short_key_unmasked dev_secret (js "google")
           (sample_db (js "google") (js "k-12")) (js "k-12")).
  - vm_compute. reflexivity.
  - vm_compute. lia.
Defined.

(** ** The credential store: codecs *)

(** *** Bytes *)

Lemma bz_range b : 0 ≤ bz b < 256.
Proof. unfold bz. pose proof (Byte.to_N_bounded b). lia. Qed.

Lemma bz_zb z : 0 ≤ z < 256 → bz (zb z) = z.
Proof.
  intros Hz. unfold bz, zb.
  destruct (Byte.of_N (Z.to_N z)) as [b|] eqn:E.
  - apply Byte.to_of_N in E. lia.
  - apply Byte.of_N_None_iff in E. lia.
Qed.

Lemma zb_bz b : zb (bz b) = b.
Proof. unfold bz, zb. by rewrite N2Z.id, Byte.of_to_N. Qed.

Lemma bz_inj a b : bz a = bz b → a = b.
Proof. intros H. by rewrite <- (zb_bz a), <- (zb_bz b), H. Qed.

Ltac dm_lia := Z.div_mod_to_equations; lia.

(** Settle the comparisons of the goal that arithmetic decides. *)
Ltac decide_tests :=
  repeat match goal with
    | |- context [Z.ltb ?a ?b] =>
        first [ rewrite (proj2 (Z.ltb_lt a b)) by dm_lia
              | rewrite (proj2 (Z.ltb_ge a b)) by dm_lia ]
    | |- context [Z.leb ?a ?b] =>
        first [ rewrite (proj2 (Z.leb_le a b)) by dm_lia
              | rewrite (proj2 (Z.leb_gt a b)) by dm_lia ]
    | |- context [Z.eqb ?a ?b] =>
        first [ rewrite (proj2 (Z.eqb_eq a b)) by dm_lia
              | rewrite (proj2 (Z.eqb_neq a b)) by dm_lia
              | destruct (Z.eqb_spec a b) ]
    end.

(** *** UTF-8: decoding what was encoded *)

Lemma utf8_run_cons n c l h b r :
  utf8_run n c l h (b :: r)
  = utf8_step (λ n c l h, utf8_run n c l h r) n c l h b.
Proof. reflexivity. Qed.

Ltac decode_byte :=
  rewrite utf8_run_cons; unfold utf8_step; rewrite bz_zb by dm_lia;
  decide_tests; cbn [andb].

Lemma decode_code_point cp tl :
  0 ≤ cp < 0x110000 → ¬ (0xD800 ≤ cp ≤ 0xDFFF) →
  utf8_decode (utf8_of_code_point cp ++ tl)
  = units_of_code_point cp ++ utf8_decode tl.
Proof.
  intros H Hs. unfold utf8_decode, utf8_of_code_point.
  destruct (Z.ltb_spec cp 0x80);
    [|destruct (Z.ltb_spec cp 0x800); [|destruct (Z.ltb_spec cp 0x10000)]];
    cbn [app].
  - decode_byte. unfold units_of_code_point. by decide_tests.
  - do 2 decode_byte; do 2 f_equal; dm_lia.
  - do 3 decode_byte; do 2 f_equal; dm_lia.
  - do 4 decode_byte; do 2 f_equal; dm_lia.
Qed.

Lemma utf8_roundtrip_bounded n s :
  (length s ≤ n)%nat → isWellFormed s = true → utf8_decode (utf8_encode s) = s.
Proof.
  revert s. induction n as [|n IH]; intros [|c r] L W; try done; [simpl in L; lia|].
  cbn [isWellFormed utf8_encode] in *. unfold code_unit in W.
  destruct (Z.leb_spec 0 c), (Z.ltb_spec c 65536); try done. cbn [andb negb] in W.
  destruct (is_high_surrogate c) eqn:Hh.
  - destruct r as [|d r']; [done|]. apply andb_prop in W as [Hl W]. rewrite Hl.
    unfold is_high_surrogate, is_low_surrogate in *.
    rewrite decode_code_point by lia. rewrite IH by (simpl in *; lia || done).
    unfold units_of_code_point. decide_tests. cbn [app]. do 2 f_equal; [dm_lia|].
    f_equal. dm_lia.
  - destruct (is_low_surrogate c) eqn:Hl; [done|].
    unfold is_high_surrogate, is_low_surrogate in *.
    rewrite decode_code_point by lia. rewrite IH by (simpl in *; lia || done).
    unfold units_of_code_point. by decide_tests.
Qed.

(** A well-formed string survives UTF-8 encoding and decoding. *)
Lemma utf8_roundtrip s :
  isWellFormed s = true → utf8_decode (utf8_encode s) = s.
Proof. by apply (utf8_roundtrip_bounded (length s)). Qed.

(** *** Hex and [split] *)

Lemma hex_value_digit n : 0 ≤ n < 16 → hex_value (hex_digit n) = Some n.
Proof.
  intros H. unfold hex_value, hex_digit.
  destruct (Z.ltb_spec n 10); decide_tests; cbn [andb]; f_equal; lia.
Qed.

Lemma hex_decode_encode bs : hex_decode (hex_encode bs) = bs.
Proof.
  induction bs as [|b bs IH]; [done|].
  cbn [hex_encode flat_map app hex_decode]. fold (hex_encode bs).
  pose proof (bz_range b).
  rewrite !hex_value_digit by dm_lia. rewrite IH. f_equal.
  rewrite <- (zb_bz b) at 3. f_equal. dm_lia.
Qed.

Lemma hex_encode_no_colon bs : Forall (λ c, c ≠ COLON) (hex_encode bs).
Proof.
  induction bs as [|b bs IH]; [constructor|].
  cbn [hex_encode flat_map app]. pose proof (bz_range b).
  repeat constructor; [..|exact IH]; unfold hex_digit, COLON;
    match goal with |- (if ?a <? ?b then _ else _) ≠ _ =>
      destruct (Z.ltb_spec a b) end; dm_lia.
Qed.

Lemma split_on_no_sep sep acc s :
  Forall (λ c, c ≠ sep) s → split_on sep acc s = [rev acc ++ s].
Proof.
  intros F. revert acc. induction F as [|c s Hc F IH]; intros acc; simpl.
  - by rewrite app_nil_r.
  - rewrite (proj2 (Z.eqb_neq c sep)) by done. rewrite IH. simpl.
    by rewrite <- app_assoc.
Qed.

Lemma split_on_first sep acc s1 s2 :
  Forall (λ c, c ≠ sep) s1 →
  split_on sep acc (s1 ++ sep :: s2) = (rev acc ++ s1) :: split_on sep [] s2.
Proof.
  intros F. revert acc. induction F as [|c s Hc F IH]; intros acc; simpl.
  - by rewrite Z.eqb_refl, app_nil_r.
  - rewrite (proj2 (Z.eqb_neq c sep)) by done. rewrite IH. simpl.
    by rewrite <- app_assoc.
Qed.

(** The payload [ivHex:dataHex] splits back into its two parts. *)
Lemma split_payload iv data :
  split_on COLON [] (hex_encode iv ++ [COLON] ++ hex_encode data)
  = [hex_encode iv; hex_encode data].
Proof.
  cbn [app]. rewrite split_on_first by apply hex_encode_no_colon.
  by rewrite split_on_no_sep by apply hex_encode_no_colon.
Qed.

(** ** AES: the inverse cipher inverts the cipher *)

Module AESFacts.
Import AES.

Lemma all_bytes_complete b : In b all_bytes.
Proof.
  rewrite <- (zb_bz b). apply in_map_iff. exists (Z.to_nat (bz b)).
  pose proof (bz_range b). split; [f_equal; lia|apply in_seq; lia].
Qed.

(** Two functions that agree on the 256 bytes are equal everywhere. *)
Lemma byte_forall_eq (f g : byte → byte) :
  forallb (λ b, Byte.eqb (f b) (g b)) all_bytes = true → ∀ b, f b = g b.
Proof.
  intros H b. apply Byte.byte_dec_bl.
  apply (proj1 (forallb_forall _ _) H b), all_bytes_complete.
Qed.

Lemma byte_forall2_eq (f g : byte → byte → byte) :
  forallb (λ a, forallb (λ b, Byte.eqb (f a b) (g a b)) all_bytes) all_bytes = true →
  ∀ a b, f a b = g a b.
Proof.
  intros H a b. apply Byte.byte_dec_bl.
  pose proof (proj1 (forallb_forall _ _) H a (all_bytes_complete a)) as Ha.
  apply (proj1 (forallb_forall _ _) Ha b), all_bytes_complete.
Qed.

Ltac by_all_bytes := vm_compute; reflexivity.

(** **** Exclusive or *)

Lemma bz_xor a b : bz (xor a b) = Z.lxor (bz a) (bz b).
Proof.
  rewrite <- (zb_bz a) at 1. rewrite <- (zb_bz b) at 1.
  pose proof (bz_range a). pose proof (bz_range b).
  unfold xor. rewrite !zb_bz. apply bz_zb.
  split; [apply Z.lxor_nonneg; lia|].
  destruct (Z.eq_dec (Z.lxor (bz a) (bz b)) 0) as [->|Hne]; [lia|].
  apply Z.log2_lt_pow2 with (b := 8); [pose proof (Z.lxor_nonneg (bz a) (bz b)); lia|].
  eapply Z.le_lt_trans; [apply Z.log2_lxor; lia|].
  apply Z.max_lub_lt.
  - destruct (Z.eq_dec (bz a) 0) as [->|?]; [done|]. apply Z.log2_lt_pow2; lia.
  - destruct (Z.eq_dec (bz b) 0) as [->|?]; [done|]. apply Z.log2_lt_pow2; lia.
Qed.

Lemma xor_comm a b : xor a b = xor b a.
Proof. apply bz_inj. by rewrite !bz_xor, Z.lxor_comm. Qed.

Lemma xor_assoc a b c : xor a (xor b c) = xor (xor a b) c.
Proof. apply bz_inj. by rewrite !bz_xor, Z.lxor_assoc. Qed.

Lemma xor_cancel a k : xor (xor a k) k = a.
Proof.
  apply bz_inj. by rewrite !bz_xor, Z.lxor_assoc, Z.lxor_nilpotent, Z.lxor_0_r.
Qed.

Lemma xor_0_r a : xor a x00 = a.
Proof. apply bz_inj. rewrite bz_xor. apply Z.lxor_0_r. Qed.

Lemma xor_interchange a b c d :
  xor (xor a b) (xor c d) = xor (xor a c) (xor b d).
Proof.
  rewrite <- (xor_assoc a b), (xor_assoc b c d), (xor_comm b c).
  by rewrite <- (xor_assoc c b d), (xor_assoc a c).
Qed.

Lemma xor_xor4 a b c d a' b' c' d' :
  xor (xor4 a b c d) (xor4 a' b' c' d')
  = xor4 (xor a a') (xor b b') (xor c c') (xor d d').
Proof.
  unfold xor4.
  by rewrite (xor_interchange a _ a'), (xor_interchange b _ b'),
    (xor_interchange c d c').
Qed.

(** A four by four sum can be taken by rows or by columns. *)
Lemma xor4_transpose a0 b0 c0 d0 a1 b1 c1 d1 a2 b2 c2 d2 a3 b3 c3 d3 :
  xor4 (xor4 a0 b0 c0 d0) (xor4 a1 b1 c1 d1) (xor4 a2 b2 c2 d2) (xor4 a3 b3 c3 d3)
  = xor4 (xor4 a0 a1 a2 a3) (xor4 b0 b1 b2 b3) (xor4 c0 c1 c2 c3) (xor4 d0 d1 d2 d3).
Proof.
  unfold xor4 at 1. rewrite !xor_xor4. reflexivity.
Qed.

Lemma xor4_0_l a : xor4 a x00 x00 x00 = a.
Proof. unfold xor4. by rewrite !xor_0_r. Qed.

Lemma xor_word_cancel v k : xor_word (xor_word v k) k = v.
Proof.
  destruct v as [[[? ?] ?] ?], k as [[[? ?] ?] ?]. cbn. by rewrite !xor_cancel.
Qed.

Lemma xor_block_cancel s k : xor_block (xor_block s k) k = s.
Proof.
  destruct s as [[[? ?] ?] ?], k as [[[? ?] ?] ?]. cbn [xor_block].
  by rewrite !xor_word_cancel.
Qed.

Lemma AddRoundKey_involutive k s : AddRoundKey k (AddRoundKey k s) = s.
Proof. apply xor_block_cancel. Qed.

(** **** SubBytes and ShiftRows *)

Lemma inv_sub_sub b : inv_sub (sub b) = b.
Proof. revert b. apply byte_forall_eq. by_all_bytes. Qed.

Lemma InvSubBytes_SubBytes s : InvSubBytes (SubBytes s) = s.
Proof.
  destruct s as [[[[[[? ?] ?] ?] [[[? ?] ?] ?]] [[[? ?] ?] ?]] [[[? ?] ?] ?]].
  unfold InvSubBytes, SubBytes. cbn [map_block map_word]. by rewrite !inv_sub_sub.
Qed.

Lemma InvShiftRows_ShiftRows s : InvShiftRows (ShiftRows s) = s.
Proof.
  by destruct s as [[[[[[? ?] ?] ?] [[[? ?] ?] ?]] [[[? ?] ?] ?]] [[[? ?] ?] ?]].
Qed.

(** **** MixColumns *)

(** Multiplication by each coefficient of the inverse matrix is
    additive. *)
Lemma mul_xor c a b :
  c ∈ [9; 11; 13; 14] → mul c (xor a b) = xor (mul c a) (mul c b).
Proof.
  intros Hc. revert a b.
  repeat (apply elem_of_cons in Hc as [->|Hc];
          [apply byte_forall2_eq; by_all_bytes|]).
  by apply elem_of_nil in Hc.
Qed.

Lemma mul_xor4 c p q r s :
  c ∈ [9; 11; 13; 14] →
  mul c (xor4 p q r s) = xor4 (mul c p) (mul c q) (mul c r) (mul c s).
Proof. intros Hc. unfold xor4. by rewrite !mul_xor. Qed.

Ltac coefficient := repeat first [apply list_elem_of_here | apply list_elem_of_further].

(** The product of a row of the inverse matrix with a column of the
    matrix, applied to one byte and checked on all of them. *)
Ltac single_byte v := revert v; apply byte_forall_eq; by_all_bytes.

(** The four sums of a goal [xor4 A B C D = _], where [A] mentions only
    the byte [a], [B] only [b], and so on. *)
Ltac groups a b c d v0 v1 v2 v3 :=
  match goal with
  | |- xor4 ?A ?B ?C ?D = _ =>
      replace A with v0 by (symmetry; single_byte a);
      replace B with v1 by (symmetry; single_byte b);
      replace C with v2 by (symmetry; single_byte c);
      replace D with v3 by (symmetry; single_byte d)
  end.

(** Each byte of the result is a sum of sixteen products; taken by
    input byte, the four products of one input byte add up to that
    byte on the diagonal and to zero elsewhere. *)
Lemma inv_mix_column_mix_column w : inv_mix_column (mix_column w) = w.
Proof.
  destruct w as [[[a b] c] d]. unfold mix_column, inv_mix_column.
  rewrite !mul_xor4 by coefficient.
  repeat apply (f_equal2 pair); rewrite xor4_transpose.
  - groups a b c d a x00 x00 x00. single_byte a.
  - groups a b c d x00 b x00 x00. single_byte b.
  - groups a b c d x00 x00 c x00. single_byte c.
  - groups a b c d x00 x00 x00 d. single_byte d.
Qed.

Lemma InvMixColumns_MixColumns s : InvMixColumns (MixColumns s) = s.
Proof.
  destruct s as [[[? ?] ?] ?]. unfold InvMixColumns, MixColumns. cbn [map_block].
  by rewrite !inv_mix_column_mix_column.
Qed.

(** **** The cipher *)

Lemma inv_rounds_rounds ks s : inv_rounds ks (rounds ks s) = s.
Proof.
  revert s. induction ks as [|k ks IH]; intros s; [done|].
  destruct ks as [|k' ks].
  - cbn [rounds inv_rounds].
    by rewrite AddRoundKey_involutive, InvShiftRows_ShiftRows, InvSubBytes_SubBytes.
  - change (rounds (k :: k' :: ks) s)
      with (rounds (k' :: ks) (AddRoundKey k (MixColumns (ShiftRows (SubBytes s))))).
    change (inv_rounds (k :: k' :: ks) ?t)
      with (InvSubBytes (InvShiftRows (InvMixColumns
              (AddRoundKey k (inv_rounds (k' :: ks) t))))).
    rewrite IH.
    by rewrite AddRoundKey_involutive, InvMixColumns_MixColumns,
      InvShiftRows_ShiftRows, InvSubBytes_SubBytes.
Qed.

Lemma InvCipher_Cipher ks s : InvCipher ks (Cipher ks s) = s.
Proof.
  destruct ks as [|k0 ks]; [done|]. unfold InvCipher, Cipher.
  by rewrite inv_rounds_rounds, AddRoundKey_involutive.
Qed.

(** **** CBC *)

Lemma cbc_decrypt_encrypt ks iv ps :
  cbc_decrypt ks iv (cbc_encrypt ks iv ps) = ps.
Proof.
  revert iv. induction ps as [|p ps IH]; intros iv; [done|].
  cbn [cbc_encrypt cbc_decrypt]. by rewrite InvCipher_Cipher, xor_block_cancel, IH.
Qed.

Lemma cbc_encrypt_length ks iv ps : length (cbc_encrypt ks iv ps) = length ps.
Proof.
  revert iv. induction ps as [|p ps IH]; intros iv; [done|].
  cbn [cbc_encrypt length]. by rewrite IH.
Qed.

(** **** Bytes and blocks *)

Lemma blocks_of_bytes_of_blocks bs :
  blocks_of_bytes (flat_map bytes_of_block bs) = bs.
Proof.
  unfold blocks_of_bytes. induction bs as [|s bs IH]; [done|].
  destruct s as [[[[[[? ?] ?] ?] [[[? ?] ?] ?]] [[[? ?] ?] ?]] [[[? ?] ?] ?]].
  cbn [flat_map bytes_of_block bytes_of_word app words_of_bytes blocks_of_words].
  by rewrite IH.
Qed.

Lemma block_of_bytes_of_block s : block_of_bytes (bytes_of_block s) = Some s.
Proof.
  by destruct s as [[[[[[? ?] ?] ?] [[[? ?] ?] ?]] [[[? ?] ?] ?]] [[[? ?] ?] ?]].
Qed.

Lemma bytes_of_block_length s : length (bytes_of_block s) = 16%nat.
Proof.
  by destruct s as [[[[[[? ?] ?] ?] [[[? ?] ?] ?]] [[[? ?] ?] ?]] [[[? ?] ?] ?]].
Qed.

Lemma bytes_of_blocks_length bs :
  length (flat_map bytes_of_block bs) = (16 * length bs)%nat.
Proof.
  induction bs as [|s bs IH]; [done|].
  cbn [flat_map]. rewrite length_app, bytes_of_block_length, IH. simpl. lia.
Qed.

(** A buffer of 16 n bytes is the bytes of n blocks. *)
Lemma bytes_as_blocks n (l : list byte) :
  length l = (16 * n)%nat →
  ∃ bs, l = flat_map bytes_of_block bs ∧ length bs = n.
Proof.
  revert l. induction n as [|n IH]; intros l L.
  - exists []. by destruct l.
  - do 16 (destruct l as [|? l]; [simpl in L; lia|]).
    destruct (IH l) as (bs & -> & <-); [simpl in L; lia|].
    by eexists ((_, _, _, _, (_, _, _, _), (_, _, _, _), (_, _, _, _)) :: bs).
Qed.

(** **** Padding *)

Lemma pad_length m :
  ∃ n, length (pad m) = (16 * S n)%nat.
Proof.
  unfold pad. rewrite length_app, repeat_length.
  exists (length m / 16)%nat.
  pose proof (Nat.div_mod_eq (length m) 16).
  pose proof (Nat.mod_upper_bound (length m) 16). lia.
Qed.

Lemma last_repeat {A} (x : A) n : last (repeat x (S n)) = Some x.
Proof. induction n as [|n IH]; [done|]. by rewrite <- IH. Qed.

Lemma unpad_pad m : unpad (pad m) = Some m.
Proof.
  unfold pad, unpad.
  pose proof (Nat.mod_upper_bound (length m) 16 ltac:(lia)) as Hr.
  set (n := (16 - length m mod 16)%nat) in *.
  assert (Hn : (1 ≤ n ≤ 16)%nat) by lia.
  destruct n as [|n']; [lia|]. rewrite last_app, last_repeat.
  rewrite bz_zb by lia. rewrite Nat2Z.id.
  rewrite length_app, repeat_length.
  replace (length m + S n' - S n')%nat with (length m) by lia.
  rewrite drop_app_length, take_app_length.
  rewrite bool_decide_eq_true_2 by done.
  by repeat (rewrite (proj2 (Nat.leb_le _ _)) by lia).
Qed.

(** **** Decrypting what was encrypted *)

Theorem aes_decrypt_encrypt key iv m : decrypt key iv (encrypt key iv m) = Some m.
Proof.
  unfold decrypt, encrypt.
  destruct (pad_length m) as [n Hn].
  destruct (bytes_as_blocks _ _ Hn) as (ps & Hps & Hlen).
  rewrite Hps, !blocks_of_bytes_of_blocks, bytes_of_blocks_length,
    cbc_encrypt_length, Hlen, cbc_decrypt_encrypt, <- Hps.
  replace (16 * S n)%nat with (S (15 + n * 16)) at 1 by lia. cbn [Nat.eqb orb].
  replace (16 * S n)%nat with (S n * 16)%nat by lia.
  rewrite Nat.Div0.mod_mul. cbn [Nat.eqb negb]. apply unpad_pad.
Qed.
End AESFacts.

(** ** The credential store: saving and reading a key *)

Lemma decrypt_encrypt secret iv text :
  isWellFormed text = true → decrypt secret (encrypt secret iv text) = inl text.
Proof.
  intros W. unfold decrypt, encrypt.
  rewrite split_payload, !hex_decode_encode, AESFacts.block_of_bytes_of_block,
    AESFacts.aes_decrypt_encrypt.
  by rewrite utf8_roundtrip.
Qed.

Lemma encrypt_nonempty secret iv text : encrypt secret iv text ≠ [].
Proof.
  unfold encrypt.
  by destruct iv as [[[[[[? ?] ?] ?] [[[? ?] ?] ?]] [[[? ?] ?] ?]] [[[? ?] ?] ?]].
Qed.

Lemma get_set_property keys name s :
  name ≠ js "__proto__" → get_property (set_property keys name s) name = Some (Str s).
Proof.
  intros Hne. unfold get_property, set_property.
  rewrite bool_decide_eq_false_2 by done. cbn [andb]. by rewrite lookup_insert_eq.
Qed.

(** [C3], as the code has it.  For every provider name other than
    [__proto__] and every API key that is a well-formed string (no
    unpaired surrogate), whatever the passphrase, the initialisation
    vector drawn and the previous content of the database,
    [setKey(provider, apiKey)] followed by [getKey(provider, false)]
    returns [apiKey]. *)
Theorem C3_setKey_getKey_roundtrip (secret : list Z) (iv : AES.block)
    (provider apiKey : list Z) (d : db) :
  provider ≠ js "__proto__" → isWellFormed apiKey = true →
  getKey secret provider false (setKey secret iv provider apiKey d)
  = inl (Some apiKey).
Proof.
  intros Hp W. unfold getKey, setKey, db_write, db_read at 1. cbn [file data].
  rewrite get_set_property by done.
  pose proof (encrypt_nonempty secret iv apiKey).
  destruct (encrypt secret iv apiKey) as [|c enc] eqn:E; [done|].
  by rewrite <- E, decrypt_encrypt.
Qed.

Lemma C3_witness :
  getKey dev_secret (js "openai") false
    (setKey dev_secret sample_iv (js "openai") (js "sk-Zm9v-鍵" ++ [0xD83D; 0xDE00])
       (sample_db (js "google") (js "AIza-old")))
  = inl (Some (js "sk-Zm9v-鍵" ++ [0xD83D; 0xDE00])).
Proof.
  apply C3_setKey_getKey_roundtrip.
  - apply (bool_decide_eq_false_1 (js "openai" = js "__proto__")). vm_compute. reflexivity.
  - vm_compute. reflexivity.
Defined.

(** The claim as the specification words it fails, and each of the two
    conditions is needed: a key saved under the provider name
    [__proto__] is not stored (reading it back is rejected), and a key
    with an unpaired surrogate comes back with U+FFFD in its place. *)
Lemma C3_counterexample :
  ¬ (∀ (secret : list Z) (iv : AES.block) (provider apiKey : list Z) (d : db),
       isWellFormed apiKey = true →
       getKey secret provider false (setKey secret iv provider apiKey d)
       = inl (Some apiKey)) ∧
  ¬ (∀ (secret : list Z) (iv : AES.block) (provider apiKey : list Z) (d : db),
       provider ≠ js "__proto__" →
       getKey secret provider false (setKey secret iv provider apiKey d)
       = inl (Some apiKey)).
Proof.
  split; intros H.
  - specialize (H dev_secret sample_iv (js "__proto__") (js "sk-abc123")
                  (ensureDb None) eq_refl).
    vm_compute in H. discriminate.
  - assert (Hp : js "openai" ≠ js "__proto__").
    { apply (bool_decide_eq_false_1 (js "openai" = js "__proto__")).
      vm_compute. reflexivity. }
    specialize (H dev_secret sample_iv (js "openai") [0x73; 0x6B; 0xD83D]
                  (ensureDb None) Hp).
    vm_compute in H. discriminate.
Qed.


(** ** More on the job registry *)

(** *** [trim] *)

Lemma trimStart_fixed c r : is_white_space c = false → trimStart (c :: r) = c :: r.
Proof. intros H. simpl. by rewrite H. Qed.

Lemma trimStart_head s :
  trimStart s = [] ∨ ∃ c r, trimStart s = c :: r ∧ is_white_space c = false.
Proof.
  induction s as [|c r IH]; [by left|]. simpl.
  destruct (is_white_space c) eqn:W; [exact IH|]. right. eauto.
Qed.

Lemma trimStart_idempotent s : trimStart (trimStart s) = trimStart s.
Proof.
  destruct (trimStart_head s) as [->|(c & r & -> & W)]; [done|].
  by apply trimStart_fixed.
Qed.

Lemma trimStart_snoc l c :
  is_white_space c = false → ∃ x, trimStart (l ++ [c]) = x ++ [c].
Proof.
  intros W. induction l as [|a l IH].
  - exists []. simpl. by rewrite W.
  - simpl. destruct (is_white_space a); [exact IH|]. by exists (a :: l).
Qed.

Lemma trim_idempotent s : trim (trim s) = trim s.
Proof.
  unfold trim.
  assert (H : trimStart (rev (trimStart (rev (trimStart s))))
              = rev (trimStart (rev (trimStart s)))).
  { destruct (trimStart_head s) as [->|(c & r & -> & W)]; [done|].
    cbn [rev]. destruct (trimStart_snoc (rev r) c W) as [x ->].
    rewrite rev_app_distr. by apply trimStart_fixed. }
  by rewrite H, rev_involutive, trimStart_idempotent.
Qed.

(** *** Jobs do not interfere and are never removed *)

Section Registry2.
Implicit Types (jobs : gmap (list Z) job) (id : list Z) (tr : list event).

Lemma on_stdout_other id id' d jobs :
  id ≠ id' → on_stdout id d jobs !! id' = jobs !! id'.
Proof.
  intros Hne. unfold on_stdout. generalize (stdout_lines d). intros lines.
  revert jobs. induction lines as [|l lines IH]; intros jobs; [done|].
  simpl. rewrite IH. by apply on_line_other.
Qed.

Lemma step_other s e id : event_job e ≠ id → jobs (step s e) !! id = jobs s !! id.
Proof.
  destruct e as [i|i d|i d|i c o]; simpl; intros Hne.
  - by rewrite lookup_insert_ne.
  - by apply on_stdout_other.
  - done.
  - by apply on_close_other.
Qed.

Lemma step_keeps s e id : is_Some (jobs s !! id) → is_Some (jobs (step s e) !! id).
Proof.
  intros H. destruct e as [i|i d|i d|i c o]; simpl.
  - destruct (decide (i = id)) as [->|?].
    + rewrite lookup_insert_eq. eauto.
    + by rewrite lookup_insert_ne.
  - by rewrite <- fmap_is_Some with (f := status), on_stdout_status, fmap_is_Some.
  - done.
  - by apply on_close_is_Some.
Qed.

Lemma accepted_exists id tr :
  (1 ≤ count (accepts id) tr)%nat → is_Some (jobs (run init tr) !! id).
Proof.
  induction tr as [|e tr IH] using rev_ind; [by cbv; lia|].
  rewrite run_snoc, count_app, count_cons. unfold count at 2. simpl.
  destruct (accepts id e) eqn:A.
  - intros _. destruct e; try done. simpl in A. apply bool_decide_eq_true in A as ->.
    simpl. rewrite lookup_insert_eq. eauto.
  - intros H. apply step_keeps, IH. lia.
Qed.
End Registry2.

(** [X1] Events of other jobs (acceptances, output, close) leave a job
    exactly as it is. *)
Theorem jobs_are_isolated (s : server) (tr : list event) (id : list Z) :
  Forall (λ e, event_job e ≠ id) tr →
  jobs (run s tr) !! id = jobs s !! id.
Proof.
  intros F. revert s. induction F as [|e tr He F IH]; intros s; [done|].
  simpl. rewrite IH. by apply step_other.
Qed.

Lemma jobs_are_isolated_witness :
  let a := js "7d4c" in
  let b := js "91aa" in
  jobs (run (run init [Accept a])
          [Accept b; Stdout b (list_byte_of_string "PROGRESS 80");
           Close b (Some 1) (inl [])]) !! a
  = jobs (run init [Accept a]) !! a.
Proof.
  intros a b. apply jobs_are_isolated.
  repeat constructor; apply (bool_decide_eq_false_1 (_ = _)); vm_compute; reflexivity.
Defined.

(** [X2] No job is ever removed: along every history of the registry a
    poll for an identifier is answered 404 exactly when no request was
    ever accepted under it. *)
Theorem poll_404_iff_never_accepted (tr : list event) (id : list Z) :
  get_transcribe id (jobs (run init tr)) = PollNotFound (js "job 不存在")
  ↔ count (accepts id) tr = 0%nat.
Proof.
  unfold get_transcribe. split.
  - intros H. destruct (count (accepts id) tr) eqn:C; [done|].
    destruct (accepted_exists id tr) as [j Hj]; [lia|]. by rewrite Hj in H.
  - intros C. destruct (jobs (run init tr) !! id) as [j|] eqn:E; [|done].
    pose proof (exists_accepted id tr (ltac:(eauto))). lia.
Qed.

Lemma poll_404_iff_never_accepted_witness :
  get_transcribe (js "91aa")
    (jobs (run init [Accept (js "7d4c"); Close (js "91aa") (Some 0) (inl [])]))
  = PollNotFound (js "job 不存在").
Proof. apply poll_404_iff_never_accepted. vm_compute. reflexivity. Defined.

(** *** The shape of a job *)

Section Shape.
Implicit Types (jobs : gmap (list Z) job) (id : list Z) (tr : list event).

(** The stdout handler changes the progress of a processing job and
    nothing else. *)
Lemma fold_on_line_lookup id lines jobs j :
  jobs !! id = Some j → status j = processing →
  fold_left (on_line id) lines jobs !! id
  = Some (Job processing (default (progress j) (last (emitted lines)))
            (result j) (error_msg j)).
Proof.
  revert jobs j. induction lines as [|l lines IH]; intros jobs j E S.
  - simpl. rewrite E. destruct j; simpl in *; by subst.
  - cbn [fold_left]. rewrite emitted_cons. unfold on_line at 2, pct_of_line.
    destruct (match_PROGRESS l) as [m1|]; simpl; [|by apply IH].
    erewrite IH; [| by rewrite updateProgress_lookup, E; simpl; rewrite S |done].
    simpl. rewrite last_cons. by destruct (last (emitted lines)).
Qed.

Lemma on_stdout_keeps_fields id id' d jobs j :
  on_stdout id d jobs !! id' = Some j →
  ∃ j0, jobs !! id' = Some j0 ∧ status j = status j0 ∧
        result j = result j0 ∧ error_msg j = error_msg j0 ∧
        (status j0 ≠ processing → j = j0).
Proof.
  destruct (decide (id = id')) as [<-|Hne]; [|rewrite on_stdout_other by done; eauto 10].
  unfold on_stdout. destruct (jobs !! id) as [j0|] eqn:E.
  - destruct (status j0) eqn:S.
    + rewrite (fold_on_line_lookup _ _ _ _ E S). intros [= <-]. exists j0. simpl.
      by rewrite S.
    + rewrite (fold_on_line_terminal _ _ _ _ E) by (by rewrite S).
      rewrite E. intros [= <-]. eauto 10.
    + rewrite (fold_on_line_terminal _ _ _ _ E) by (by rewrite S).
      rewrite E. intros [= <-]. eauto 10.
  - intros H. assert (is_Some (status <$> fold_left (on_line id) (stdout_lines d) jobs !! id))
      as Hs by (rewrite H; eauto).
    rewrite fold_on_line_status, E in Hs. by destruct Hs.
Qed.

Lemma well_shaped_step s e :
  (∀ id j, jobs s !! id = Some j → well_shaped j) →
  ∀ id j, jobs (step s e) !! id = Some j → well_shaped j.
Proof.
  intros Hs id j. destruct e as [i|i d|i d|i c o]; simpl.
  - destruct (decide (i = id)) as [->|?].
    + rewrite lookup_insert_eq. by intros [= <-].
    + rewrite lookup_insert_ne by done. apply Hs.
  - intros (j0 & E0 & S & R & M & Hsame)%on_stdout_keeps_fields.
    specialize (Hs _ _ E0).
    destruct (decide (status j0 = processing)) as [P|NP]; [|by rewrite (Hsame NP)].
    unfold well_shaped in *. rewrite S, R, M. by rewrite P in *.
  - apply Hs.
  - destruct (decide (i = id)) as [->|?]; [|rewrite on_close_other by done; apply Hs].
    unfold on_close. destruct (jobs s !! id) as [j0|] eqn:E0; [|by rewrite E0].
    case_bool_decide; [destruct o|]; rewrite lookup_insert_eq; intros [= <-];
      unfold well_shaped; simpl; eauto using trim_idempotent.
Qed.

End Shape.

Lemma run_well_shaped (tr : list event) (id : list Z) (j : job) :
  jobs (run init tr) !! id = Some j → well_shaped j.
Proof.
  revert id j. induction tr as [|e tr IH] using rev_ind.
  - intros id j. simpl. by rewrite lookup_empty.
  - rewrite run_snoc. by apply well_shaped_step.
Qed.

(** [X3] After any history of the registry every job has the fields its
    status announces: while processing, no result and no error; when
    done, progress 100 and a result, which is trimmed; on error, an
    error message. *)
Theorem jobs_are_well_shaped (tr : list event) (id : list Z) (j : job) :
  jobs (run init tr) !! id = Some j →
  match status j with
  | processing => result j = None ∧ error_msg j = None
  | done => progress j = 100 ∧ ∃ r, result j = Some r ∧ trim r = r
  | error => ∃ m, error_msg j = Some m
  end.
Proof. apply run_well_shaped. Qed.

Lemma jobs_are_well_shaped_witness :
  progress (Job done 100 (Some (js "done text")) None) = 100 ∧
  ∃ r, Some (js "done text") = Some r ∧ trim r = r.
Proof.
  apply (jobs_are_well_shaped
           [Accept (js "7d4c"); Stdout (js "7d4c") (list_byte_of_string "PROGRESS 50");
            Close (js "7d4c") (Some 0) (inl (js " done text "))]
           (js "7d4c") (Job done 100 (Some (js "done text")) None)).
  vm_compute. reflexivity.
Defined.

Lemma not_closed_processing (tr : list event) (id : list Z) (j : job) :
  jobs (run init tr) !! id = Some j → count (closes id) tr = 0%nat →
  status j = processing.
Proof.
  intros E C. destruct (status j) eqn:S; [done| |].
  all: assert (1 ≤ count (closes id) tr)%nat; [|lia].
  all: apply (terminal_closed id tr (status j));
    [unfold status_of; by rewrite E | by rewrite S].
Qed.

(** [X4] With a fresh identifier per request and one ['close'] per
    subprocess, a job never carries both a result and an error: a done
    job has no error, a failed job has no result. *)
Theorem result_and_error_exclude (tr : list event) (id : list Z) (j : job) :
  (count (accepts id) tr ≤ 1)%nat → (count (closes id) tr ≤ 1)%nat →
  jobs (run init tr) !! id = Some j →
  match status j with
  | processing => result j = None ∧ error_msg j = None
  | done => error_msg j = None
  | error => result j = None
  end.
Proof.
  revert j. induction tr as [|e tr IH] using rev_ind; intros j.
  - simpl. by rewrite lookup_empty.
  - rewrite run_snoc, !count_app, !count_cons. unfold count at 2 4. simpl.
    intros Ha Hc. destruct e as [i|i d|i d|i c o]; simpl in *.
    + destruct (decide (i = id)) as [->|?].
      * rewrite lookup_insert_eq. by intros [= <-].
      * rewrite lookup_insert_ne by done. apply IH; lia.
    + intros (j0 & E0 & S & R & M & _)%on_stdout_keeps_fields.
      rewrite S, R, M. apply IH; [lia..|done].
    + apply IH; lia.
    + destruct (decide (i = id)) as [->|?];
        [|rewrite on_close_other by done; case_bool_decide; [done|]; apply IH; lia].
      rewrite bool_decide_eq_true_2 in Hc by done.
      unfold on_close. destruct (jobs (run init tr) !! id) as [j0|] eqn:E0;
        [|by rewrite E0].
      pose proof (not_closed_processing tr id j0 E0 ltac:(lia)) as P.
      pose proof (run_well_shaped tr id j0 E0) as W. unfold well_shaped in W.
      rewrite P in W. destruct W as [R M].
      case_bool_decide; [destruct o|]; rewrite lookup_insert_eq; by intros [= <-].
Qed.

Lemma result_and_error_exclude_witness :
  result (Job error 50 None (Some (js "boom"))) = None.
Proof.
  apply (result_and_error_exclude
           [Accept (js "7d4c"); Stdout (js "7d4c") (list_byte_of_string "PROGRESS 50");
            Stderr (js "7d4c") (list_byte_of_string "boom");
            Close (js "7d4c") (Some 1) (inl [])]
           (js "7d4c") (Job error 50 None (Some (js "boom")))).
  - vm_compute. lia.
  - vm_compute. lia.
  - vm_compute. reflexivity.
Defined.

(** *** The life of one job *)

Lemma emitted_app l1 l2 : emitted (l1 ++ l2) = emitted l1 ++ emitted l2.
Proof. unfold emitted. apply omap_app. Qed.

Lemma run_processing (id : list Z) (evs : list event) (s : server) (j : job) :
  jobs s !! id = Some j → status j = processing →
  count (accepts id) evs = 0%nat → count (closes id) evs = 0%nat →
  jobs (run s evs) !! id
  = Some (Job processing
            (default (progress j) (last (emitted (stdout_lines_of id evs))))
            (result j) (error_msg j)) ∧
  default [] (stderr_of (run s evs) !! id)
  = default [] (stderr_of s !! id) ++ stderr_text id evs.
Proof.
  revert s j. induction evs as [|e evs IH]; intros s j E S.
  - intros _ _. simpl. rewrite E, app_nil_r. by destruct j; simpl in *; subst.
  - rewrite !count_cons. intros Ha Hc.
    change (run s (e :: evs)) with (run (step s e) evs).
    unfold stdout_lines_of, stderr_text. cbn [flat_map].
    fold (stdout_lines_of id evs) (stderr_text id evs).
    destruct e as [i|i d|i d|i c o]; simpl in Ha, Hc.
    + case_bool_decide; [lia|].
      destruct (IH (step s (Accept i)) j) as [-> ->]; simpl;
        rewrite ?lookup_insert_ne by done; try done; lia.
    + case_bool_decide as Hi.
      * subst i. rewrite emitted_app, last_app.
        set (j' := Job processing (default (progress j) (last (emitted (stdout_lines d))))
                     (result j) (error_msg j)).
        destruct (IH (step s (Stdout id d)) j') as [-> ->]; simpl; try done; try lia.
        -- by apply fold_on_line_lookup.
        -- split; [|done]. by destruct (last (emitted (stdout_lines_of id evs))).
      * destruct (IH (step s (Stdout i d)) j) as [-> ->]; simpl;
          rewrite ?on_stdout_other by done; try done; lia.
    + case_bool_decide as Hi.
      * subst i. destruct (IH (step s (Stderr id d)) j) as [-> ->]; simpl; try done; try lia.
        rewrite lookup_insert_eq. simpl. by rewrite app_assoc.
      * destruct (IH (step s (Stderr i d)) j) as [-> ->]; simpl;
          rewrite ?lookup_insert_ne by done; try done; lia.
    + case_bool_decide; [lia|].
      destruct (IH (step s (Close i c o)) j) as [-> ->]; simpl;
        rewrite ?on_close_other by done; try done; lia.
Qed.

(** [X5] The life of a job.  A request is accepted under [id]; its
    subprocess writes to its output and error streams (other jobs may
    come and go meanwhile) and is closed.  Then the job is done with
    progress 100 and the trimmed transcript when the code is 0 and the
    output file was read; otherwise it has failed, with the last
    progress emitted, no result, and as error the message of the read
    failure or, on another code, everything written to standard error
    (or [exit code <code>] when nothing was). *)
Theorem job_lifecycle (s : server) (id : list Z) (evs : list event)
    (code : option Z) (out : read_result) :
  count (accepts id) evs = 0%nat → count (closes id) evs = 0%nat →
  jobs (run s ([Accept id] ++ evs ++ [Close id code out])) !! id
  = Some
      (let p := default 0 (last (emitted (stdout_lines_of id evs))) in
       if bool_decide (code = Some 0) then
         match out with
         | inl text => Job done 100 (Some (trim text)) None
         | inr message => Job error p None (Some message)
         end
       else
         Job error p None
           (Some (or_else (stderr_text id evs) (js "exit code " ++ show_code code)))).
Proof.
  intros Ha Hc. rewrite !run_app. set (s1 := run s [Accept id]).
  assert (E1 : jobs s1 !! id = Some new_job) by (simpl; by rewrite lookup_insert_eq).
  assert (Err1 : stderr_of s1 !! id = Some []) by (simpl; by rewrite lookup_insert_eq).
  destruct (run_processing id evs s1 new_job E1 eq_refl Ha Hc) as [E Err].
  rewrite Err1 in Err. cbn [default app] in Err.
  change (run ?x [Close id code out]) with (step x (Close id code out)).
  cbn [step jobs]. unfold on_close. rewrite E, Err.
  case_bool_decide; [destruct out|]; by rewrite lookup_insert_eq.
Qed.

Lemma job_lifecycle_witness :
  let a := js "7d4c" in
  let b := js "91aa" in
  jobs (run init ([Accept a]
                  ++ [Stdout a (list_byte_of_string "PROGRESS 30"); Accept b;
                      Stderr a (list_byte_of_string "CUDA "); Close b (Some 0) (inl []);
                      Stderr a (list_byte_of_string "out of memory")]
                  ++ [Close a (Some 1) (inl [])])) !! a
  = Some (Job error 30 None (Some (js "CUDA out of memory"))).
Proof.
  intros a b.
  rewrite (job_lifecycle init a _ (Some 1) (inl [])).
  - vm_compute. reflexivity.
  - vm_compute. reflexivity.
  - vm_compute. reflexivity.
Defined.

(** ** More on the stdout handler *)

(** *** A progress line as the subprocess prints it *)

Lemma strip_prefix_app p s : strip_prefix p (p ++ s) = Some s.
Proof.
  induction p as [|a p IH]; [by destruct s|]. simpl. by rewrite Z.eqb_refl.
Qed.

Lemma take_digits_app k ds rest :
  Forall (λ c, is_digit c = true) ds → (length ds ≤ k)%nat →
  (length ds = k ∨ match rest with c :: _ => is_digit c = false | [] => True end) →
  take_digits k (ds ++ rest) = ds.
Proof.
  intros F. revert k. induction F as [|c ds D F IH]; intros k L H.
  - destruct k as [|k], rest as [|c r]; try done. simpl.
    destruct H as [H|H]; [done|]. by rewrite H.
  - destruct k as [|k]; [simpl in L; lia|]. cbn [app take_digits]. rewrite D.
    f_equal. apply IH; [simpl in L; lia|]. destruct H as [H|H]; [left|by right].
    simpl in H. lia.
Qed.

Lemma forallb_Forall {A} (f : A → bool) l :
  forallb f l = true → Forall (λ c, f c = true) l.
Proof.
  induction l as [|a l IH]; [constructor|]. simpl.
  intros [? ?]%andb_prop. constructor; auto.
Qed.

(** The decimal numerals of 0 to 999, checked one by one. *)
Lemma numeral_ok n :
  0 ≤ n ≤ 999 →
  forallb is_digit (string_of_int n) = true ∧
  (1 ≤ length (string_of_int n) ≤ 3)%nat ∧
  parseInt (string_of_int n) = n.
Proof.
  intros H.
  assert (A : forallb (λ n, forallb is_digit (string_of_int n)
                            && (1 <=? Z.of_nat (length (string_of_int n)))
                            && (Z.of_nat (length (string_of_int n)) <=? 3)
                            && (parseInt (string_of_int n) =? n))
                (seqZ 0 1000) = true) by (vm_compute; reflexivity).
  rewrite forallb_forall in A. specialize (A n).
  destruct (andb_prop _ _ (A ltac:(apply list_elem_of_In, elem_of_seqZ; lia)))
    as [[[A1 A2]%andb_prop A3]%andb_prop A4].
  split_and!; [done|lia|lia|lia].
Qed.

(** [X6] A line made of [PROGRESS ], a number from 0 to 999 in decimal
    and then nothing or something that does not start with a digit,
    stores that number, capped at 100. *)
Theorem progress_line_parsed (n : Z) (rest : list Z) :
  0 ≤ n ≤ 999 →
  match rest with c :: _ => is_digit c = false | [] => True end →
  pct_of_line (js "PROGRESS " ++ string_of_int n ++ rest) = Some (Z.min 100 n).
Proof.
  intros Hn Hrest. destruct (numeral_ok n Hn) as (D & L & P).
  unfold pct_of_line.
  assert (M : match_PROGRESS (js "PROGRESS " ++ string_of_int n ++ rest)
              = Some (string_of_int n)).
  { change (js "PROGRESS " ++ string_of_int n ++ rest)
      with (80 :: ([82; 79; 71; 82; 69; 83; 83; 32] ++ string_of_int n ++ rest)).
    cbn [match_PROGRESS].
    change (80 :: ([82; 79; 71; 82; 69; 83; 83; 32] ++ string_of_int n ++ rest))
      with (js "PROGRESS " ++ (string_of_int n ++ rest)).
    rewrite strip_prefix_app.
    rewrite take_digits_app; [| by apply forallb_Forall | lia | by right].
    destruct (string_of_int n); [simpl in L; lia|done]. }
  rewrite M. simpl. by rewrite P.
Qed.

Lemma progress_line_parsed_witness :
  pct_of_line (js "PROGRESS " ++ string_of_int 250 ++ js "%") = Some (Z.min 100 250).
Proof. apply progress_line_parsed; [lia|vm_compute; reflexivity]. Defined.

(** *** Output delivered in several chunks *)

(** A step of the decoder produces some code units and leaves the rest
    of the input to be decoded from one state, in which no sequence is
    open or the next byte must be 0x80 or more. *)
Lemma utf8_step_tail n c l h b :
  ∃ pre n' c' l' h',
    (n' = 0 ∨ 0x80 ≤ l') ∧
    ∀ k, utf8_step k n c l h b = pre ++ k n' c' l' h'.
Proof.
  unfold utf8_step.
  repeat match goal with
    | |- context [if ?x then _ else _] => destruct x
    end;
    first
      [ by (eexists [], _, _, _, _; split; [|intros k; reflexivity]; (by left) || (right; lia))
      | by (eexists [_], _, _, _, _; split; [|intros k; reflexivity]; (by left) || (right; lia))
      | by (eexists [_; _], _, _, _, _; split; [|intros k; reflexivity]; (by left) || (right; lia))
      | by (eexists (units_of_code_point _), _, _, _, _; split;
            [|intros k; reflexivity]; (by left) || (right; lia)) ].
Qed.

Lemma utf8_run_ascii_cut d1 b d2 n c l h :
  bz b < 0x80 → n = 0 ∨ 0x80 ≤ l →
  utf8_run n c l h (d1 ++ b :: d2) = utf8_run n c l h (d1 ++ [b]) ++ utf8_decode d2.
Proof.
  intros Hb. revert n c l h. induction d1 as [|a d1 IH]; intros n c l h Hs.
  - cbn [app]. rewrite !utf8_run_cons. unfold utf8_step.
    rewrite (proj2 (Z.ltb_lt (bz b) 0x80)) by done.
    destruct (n =? 0) eqn:N; [done|]. apply Z.eqb_neq in N.
    destruct Hs as [?|Hl]; [done|].
    by rewrite (proj2 (Z.leb_gt l (bz b))) by lia.
  - cbn [app]. rewrite !utf8_run_cons.
    destruct (utf8_step_tail n c l h a) as (pre & n' & c' & l' & h' & Hs' & Hk).
    rewrite !Hk, (IH n' c' l' h' Hs'). by rewrite app_assoc.
Qed.

Lemma utf8_run_ascii_last d1 b n c l h :
  bz b < 0x80 → n = 0 ∨ 0x80 ≤ l →
  ∃ s, utf8_run n c l h (d1 ++ [b]) = s ++ [bz b].
Proof.
  intros Hb. revert n c l h. induction d1 as [|a d1 IH]; intros n c l h Hs.
  - cbn [app]. rewrite !utf8_run_cons. unfold utf8_step.
    rewrite (proj2 (Z.ltb_lt (bz b) 0x80)) by done.
    destruct (n =? 0) eqn:N; [by exists []|]. apply Z.eqb_neq in N.
    destruct Hs as [?|Hl]; [done|].
    rewrite (proj2 (Z.leb_gt l (bz b))) by lia. by exists [REPLACEMENT].
  - cbn [app]. rewrite !utf8_run_cons.
    destruct (utf8_step_tail n c l h a) as (pre & n' & c' & l' & h' & Hs' & Hk).
    rewrite Hk. destruct (IH n' c' l' h' Hs') as [s ->]. exists (pre ++ s).
    by rewrite app_assoc.
Qed.

Lemma filter_Boolean_cons x l :
  filter_Boolean (x :: l)
  = match x with [] => filter_Boolean l | _ => x :: filter_Boolean l end.
Proof. unfold filter_Boolean. rewrite filter_cons. destruct x; by case_decide. Qed.

Lemma split_lf_runs_restart s :
  filter_Boolean (split_lf_runs [] true s) = filter_Boolean (split_lf_runs [] false s).
Proof.
  destruct s as [|c r]; [done|]. cbn [split_lf_runs].
  destruct (c =? 10); [|done]. by rewrite filter_Boolean_cons.
Qed.

Lemma split_lf_runs_cut s1 s2 acc in_run :
  (in_run = true → acc = []) →
  filter_Boolean (split_lf_runs acc in_run (s1 ++ 10 :: s2))
  = filter_Boolean (split_lf_runs acc in_run (s1 ++ [10]))
    ++ filter_Boolean (split_lf_runs [] false s2).
Proof.
  revert acc in_run. induction s1 as [|c s1 IH]; intros acc in_run Hacc.
  - cbn [app split_lf_runs]. rewrite Z.eqb_refl. destruct in_run.
    + rewrite (Hacc eq_refl). by rewrite split_lf_runs_restart.
    + rewrite !filter_Boolean_cons, split_lf_runs_restart.
      by destruct (rev acc).
  - cbn [app split_lf_runs]. destruct (c =? 10).
    + destruct in_run; [by apply IH|].
      rewrite !filter_Boolean_cons, IH by done. by destruct (rev acc).
    + by apply IH.
Qed.

Lemma stdout_lines_cut d1 d2 :
  stdout_lines (d1 ++ [x0a] ++ d2) = stdout_lines (d1 ++ [x0a]) ++ stdout_lines d2.
Proof.
  unfold stdout_lines, utf8_decode. cbn [app].
  rewrite (utf8_run_ascii_cut d1 x0a d2 0 0 0x80 0xBF eq_refl (or_introl eq_refl)).
  destruct (utf8_run_ascii_last d1 x0a 0 0 0x80 0xBF eq_refl (or_introl eq_refl))
    as [s ->].
  change (bz x0a) with 10. rewrite <- app_assoc. cbn [app].
  by apply split_lf_runs_cut.
Qed.

(** [X7] Output that arrives in two chunks, the first of which ends
    with a line feed, has the same effect on the registry as the same
    bytes arriving in one chunk. *)
Theorem stdout_chunks_at_line_ends (id : list Z) (d1 d2 : list byte)
    (jobs : gmap (list Z) job) :
  on_stdout id (d1 ++ [x0a] ++ d2) jobs
  = on_stdout id d2 (on_stdout id (d1 ++ [x0a]) jobs).
Proof. unfold on_stdout. by rewrite stdout_lines_cut, fold_left_app. Qed.

(** ** More on the credential store *)

Lemma get_property_set_other keys p q v :
  q ≠ p → get_property (set_property keys p v) q = get_property keys q.
Proof.
  intros Hne. unfold get_property, set_property.
  destruct (_ && _); [done|]. by rewrite lookup_insert_ne.
Qed.

Lemma db_read_setKey secret iv p k d :
  db_read (setKey secret iv p k d)
  = Db (Some (set_property (data (db_read d)) p (encrypt secret iv k)))
       (set_property (data (db_read d)) p (encrypt secret iv k)).
Proof. reflexivity. Qed.

(** A stored payload that [encrypt] made is read back. *)
Lemma getKey_stored secret iv p k d :
  data (db_read d) !! p = Some (encrypt secret iv k) → isWellFormed k = true →
  getKey secret p false d = inl (Some k).
Proof.
  intros E W. unfold getKey, get_property. rewrite E.
  pose proof (encrypt_nonempty secret iv k).
  destruct (encrypt secret iv k) as [|c enc] eqn:Enc; [done|].
  by rewrite <- Enc, decrypt_encrypt.
Qed.

Lemma set_property_lookup keys p v :
  p ≠ js "__proto__" → set_property keys p v !! p = Some v.
Proof.
  intros Hne. unfold set_property. rewrite bool_decide_eq_false_2 by done.
  cbn [andb]. by rewrite lookup_insert_eq.
Qed.

(** [X8] Saving a key for one provider does not change what is read for
    any other provider, masked or not. *)
Theorem setKey_leaves_other_providers (secret secret' : list Z) (iv : AES.block)
    (p q k : list Z) (masked : bool) (d : db) :
  q ≠ p →
  getKey secret q masked (setKey secret' iv p k d) = getKey secret q masked d.
Proof.
  intros Hne. unfold getKey. rewrite db_read_setKey. cbn [data].
  by rewrite get_property_set_other.
Qed.

Lemma setKey_leaves_other_providers_witness :
  getKey dev_secret (js "google") true
    (setKey dev_secret sample_iv (js "openai") (js "sk-abc123")
       (sample_db (js "google") (js "AIza-0042")))
  = getKey dev_secret (js "google") true (sample_db (js "google") (js "AIza-0042")).
Proof.
  apply setKey_leaves_other_providers.
  apply (bool_decide_eq_false_1 (_ = _)). vm_compute. reflexivity.
Defined.

(** [X9] A saved key survives a restart of the server: a new process
    that opens the file written by [setKey] (with the same passphrase)
    reads the key back. *)
Theorem key_survives_restart (secret : list Z) (iv : AES.block)
    (provider apiKey : list Z) (d : db) :
  provider ≠ js "__proto__" → isWellFormed apiKey = true →
  getKey secret provider false (ensureDb (file (setKey secret iv provider apiKey d)))
  = inl (Some apiKey).
Proof.
  intros Hp W. apply (getKey_stored secret iv); [|done].
  cbn. by apply set_property_lookup.
Qed.

Lemma key_survives_restart_witness :
  getKey dev_secret (js "openai") false
    (ensureDb (file (setKey dev_secret sample_iv (js "openai") (js "sk-abc123")
                       (ensureDb None))))
  = inl (Some (js "sk-abc123")).
Proof.
  apply key_survives_restart.
  - apply (bool_decide_eq_false_1 (_ = _)). vm_compute. reflexivity.
  - vm_compute. reflexivity.
Defined.

(** [X10] Asking for a provider that has no stored key is answered
    [{ provider, key: null }], except when the name is that of a
    property of [Object.prototype] ([constructor], [toString],
    [__proto__], ...): then the lookup finds the inherited value,
    which has no [split], so decrypting it throws a [TypeError] and the
    answer is a 500 with its message. *)
Theorem get_keys_without_stored_key (secret provider : list Z) (d : db) :
  data (db_read d) !! provider = None →
  (get_keys secret provider d).1
  = if bool_decide (provider ∈ Object_prototype)
    then KeysError 500
           (js "payload.split is not a function or its return value is not iterable")
    else KeysMasked provider None.
Proof.
  intros E. unfold get_keys, getKey, get_property. rewrite E.
  by case_bool_decide.
Qed.

Lemma get_keys_without_stored_key_witness :
  (get_keys dev_secret (js "constructor") (sample_db (js "openai") (js "sk-abc123"))).1
  = KeysError 500
      (js "payload.split is not a function or its return value is not iterable") ∧
  (get_keys dev_secret (js "google") (sample_db (js "openai") (js "sk-abc123"))).1
  = KeysMasked (js "google") None.
Proof.
  split.
  - rewrite get_keys_without_stored_key; vm_compute; reflexivity.
  - rewrite get_keys_without_stored_key; vm_compute; reflexivity.
Defined.

(** [X11] [decrypt] gives back what [encrypt] was given, for every
    passphrase and initialisation vector, when the text is a
    well-formed string. *)
Theorem decrypt_inverts_encrypt (secret : list Z) (iv : AES.block) (text : list Z) :
  isWellFormed text = true → decrypt secret (encrypt secret iv text) = inl text.
Proof. apply decrypt_encrypt. Qed.

Lemma decrypt_inverts_encrypt_witness :
  decrypt (js "correct horse") (encrypt (js "correct horse") sample_iv (js "sk-鍵-123"))
  = inl (js "sk-鍵-123").
Proof. apply decrypt_inverts_encrypt. vm_compute. reflexivity. Defined.

(** *** The stored payload *)

Lemma hex_encode_length bs : length (hex_encode bs) = (2 * length bs)%nat.
Proof. induction bs as [|b bs IH]; [done|]. cbn [hex_encode flat_map app length] in *.
  fold (hex_encode bs). rewrite IH. lia. Qed.

Lemma hex_encode_alphabet bs : forallb is_hex_or_colon (hex_encode bs) = true.
Proof.
  induction bs as [|b bs IH]; [done|].
  cbn [hex_encode flat_map app forallb]. fold (hex_encode bs). rewrite IH.
  pose proof (bz_range b).
  assert (H16 : ∀ n, 0 ≤ n < 16 → is_hex_or_colon (hex_digit n) = true).
  { intros n Hn. unfold is_hex_or_colon, is_digit, hex_digit, COLON.
    destruct (Z.ltb_spec n 10); decide_tests; done. }
  by rewrite !H16 by dm_lia.
Qed.

Lemma aes_encrypt_length key iv m :
  length (AES.encrypt key iv m) = (16 * (length m / 16 + 1))%nat.
Proof.
  unfold AES.encrypt.
  assert (L : length (AES.pad m) = (16 * (length m / 16 + 1))%nat).
  { unfold AES.pad. rewrite length_app, repeat_length.
    pose proof (Nat.div_mod_eq (length m) 16).
    pose proof (Nat.mod_upper_bound (length m) 16). lia. }
  destruct (AESFacts.bytes_as_blocks _ _ L) as (ps & Hps & Hlen).
  rewrite Hps, AESFacts.blocks_of_bytes_of_blocks, AESFacts.bytes_of_blocks_length,
    AESFacts.cbc_encrypt_length. lia.
Qed.

(** [X12] The payload [encrypt] produces: 32 hex digits that are the
    initialisation vector, a colon, and 32 hex digits for each block of
    16 bytes of the padded UTF-8 text; nothing but lower-case hex
    digits and the colon. *)
Theorem encrypt_payload_shape (secret : list Z) (iv : AES.block) (text : list Z) :
  take 32 (encrypt secret iv text) = hex_encode (AES.bytes_of_block iv) ∧
  length (encrypt secret iv text)
  = (33 + 32 * (length (utf8_encode text) / 16 + 1))%nat ∧
  forallb is_hex_or_colon (encrypt secret iv text) = true.
Proof.
  unfold encrypt. split_and!.
  - rewrite take_app_length'; [done|].
    by rewrite hex_encode_length, AESFacts.bytes_of_block_length.
  - rewrite !length_app, !hex_encode_length, AESFacts.bytes_of_block_length,
      aes_encrypt_length. simpl. lia.
  - rewrite !forallb_app, !hex_encode_alphabet. done.
Qed.

(** [X13] [decrypt] returns a text only for a payload with a colon
    whose first part decodes to exactly 16 bytes and whose second part
    decodes to a positive multiple of 16 bytes; any other payload makes
    it throw. *)
Theorem decrypt_accepts_only_shaped_payloads (secret payload text : list Z) :
  decrypt secret payload = inl text →
  ∃ ivHex dataHex rest,
    split_on COLON [] payload = ivHex :: dataHex :: rest ∧
    length (hex_decode ivHex) = 16%nat ∧
    (0 < length (hex_decode dataHex))%nat ∧
    (length (hex_decode dataHex) mod 16 = 0)%nat.
Proof.
  unfold decrypt.
  destruct (split_on COLON [] payload) as [|ivHex [|dataHex rest]]; try done.
  unfold AES.block_of_bytes, AES.decrypt.
  destruct (AES.blocks_of_bytes (hex_decode ivHex)) as [|s [|? ?]]; try done.
  destruct (Nat.eqb_spec (length (hex_decode ivHex)) 16); [|done].
  destruct (Nat.eqb_spec (length (hex_decode dataHex)) 0); [done|].
  destruct (Nat.eqb_spec (length (hex_decode dataHex) mod 16) 0); [|done].
  intros _. exists ivHex, dataHex, rest. split_and!; [done..|lia|done].
Qed.

Lemma decrypt_accepts_only_shaped_payloads_witness :
  ∃ ivHex dataHex rest,
    split_on COLON [] (encrypt dev_secret sample_iv (js "sk-abc123"))
    = ivHex :: dataHex :: rest ∧
    length (hex_decode ivHex) = 16%nat ∧
    (0 < length (hex_decode dataHex))%nat ∧
    (length (hex_decode dataHex) mod 16 = 0)%nat.
Proof.
  apply (decrypt_accepts_only_shaped_payloads dev_secret _ (js "sk-abc123")).
  vm_compute. reflexivity.
Defined.

(** *** The two routes on keys *)

(** [X14] A key posted to /api/keys is then shown masked by
    /api/keys/:provider: for a non-empty provider name other than
    [__proto__] and a non-empty well-formed key, the POST answers
    [{ ok: true }] and the GET that follows answers the provider with
    the mask of that key. *)
Theorem posted_key_is_shown_masked (secret : list Z) (iv : AES.block)
    (provider apiKey : list Z) (d : db) :
  provider ≠ [] → apiKey ≠ [] →
  provider ≠ js "__proto__" → isWellFormed apiKey = true →
  (post_keys secret iv (Some provider) (Some apiKey) d).1 = KeysSaved ∧
  (get_keys secret provider (post_keys secret iv (Some provider) (Some apiKey) d).2).1
  = KeysMasked provider (Some (mask apiKey)).
Proof.
  intros Hp Hk Hproto W. unfold post_keys.
  destruct provider as [|p0 p]; [done|]. destruct apiKey as [|k0 k]; [done|].
  cbn [falsy orb fst snd]. split; [done|].
  unfold get_keys.
  rewrite (getKey_masked secret (p0 :: p) _ (k0 :: k)); [done|].
  apply (getKey_stored secret iv); [|done].
  rewrite db_read_setKey. cbn [data]. by apply set_property_lookup.
Qed.

Lemma posted_key_is_shown_masked_witness :
  (get_keys dev_secret (js "openai")
     (post_keys dev_secret sample_iv (Some (js "openai")) (Some (js "sk-abc123"))
        (ensureDb None)).2).1
  = KeysMasked (js "openai") (Some (mask (js "sk-abc123"))).
Proof.
  apply posted_key_is_shown_masked.
  - discriminate.
  - discriminate.
  - apply (bool_decide_eq_false_1 (_ = _)). vm_compute. reflexivity.
  - vm_compute. reflexivity.
Defined.

(** ** Masking a key that contains a line terminator *)

(** [C6] at a failing input.  The key [secretpart\nabcd] is posted to
    /api/keys and saved; the GET that follows should show eleven stars
    and [abcd].  The [.] of [/.(?=.{4})/g] has no [s] flag: it does not
    match the line feed, so the look-ahead fails at the four characters
    before it and the answer is [******part\nabcd], with [part] and the
    line feed readable.  This holds for every passphrase, every
    initialisation vector and every state of the database. *)
Theorem C6_line_terminator_leaks (secret : list Z) (iv : AES.block) (d : db) :
  let key := js "secretpart" ++ [10] ++ js "abcd" in
  let saved := post_keys secret iv (Some (js "openai")) (Some key) d in
  saved.1 = KeysSaved ∧
  getKey secret (js "openai") false saved.2 = inl (Some key) ∧
  (get_keys secret (js "openai") saved.2).1
  = KeysMasked (js "openai") (Some (js "******part" ++ [10] ++ js "abcd")) ∧
  js "******part" ++ [10] ++ js "abcd"
  ≠ repeat STAR (length key - 4) ++ drop (length key - 4) key.
Proof.
  intros key saved.
  assert (S : saved = (KeysSaved, setKey secret iv (js "openai") key d)).
  { subst saved. unfold post_keys.
    replace (falsy (Some (js "openai"))) with false by (by vm_compute).
    by replace (falsy (Some key)) with false by (by vm_compute). }
  rewrite S. cbn [fst snd].
  assert (G : getKey secret (js "openai") false
                (setKey secret iv (js "openai") key d) = inl (Some key)).
  { apply (getKey_stored secret iv); [|by vm_compute].
    rewrite db_read_setKey. cbn [data]. apply set_property_lookup.
    apply (bool_decide_eq_false_1 (_ = _)). by vm_compute. }
  split_and!.
  - done.
  - exact G.
  - unfold get_keys. by rewrite (getKey_masked _ _ _ _ G).
  - by vm_compute.
Qed.

(** ** More on POST /api/transcribe *)

(** [X15] What a request does to the registry.  It leaves it as it is
    or adds one job, fresh and processing, under the UUID drawn; jobs
    registered under other identifiers are not touched.  Handlers watch
    a subprocess only for that new job, and a request that calls the
    remote transcription creates no job and spawns nothing. *)
Theorem post_transcribe_registry (w : world) (file : option upload)
    (jobs : gmap (list Z) job) :
  (jobs_after (post_transcribe w file jobs) = jobs ∨
   jobs_after (post_transcribe w file jobs) = <[randomUUID w := new_job]> jobs) ∧
  (∀ id, id ≠ randomUUID w →
     jobs_after (post_transcribe w file jobs) !! id = jobs !! id) ∧
  (∀ id, watching (post_transcribe w file jobs) = Some id →
     id = randomUUID w ∧
     jobs_after (post_transcribe w file jobs) !! id = Some new_job ∧
     existsb is_Spawn (effects (post_transcribe w file jobs)) = true) ∧
  (existsb is_Transcribe (effects (post_transcribe w file jobs)) = true →
     jobs_after (post_transcribe w file jobs) = jobs ∧
     watching (post_transcribe w file jobs) = None ∧
     existsb is_Spawn (effects (post_transcribe w file jobs)) = false).
Proof.
  unfold post_transcribe.
  destruct file as [f|]; [|by split_and!; auto].
  destruct (negb (bool_decide (mimetype f ∈ okMimes))); [by split_and!; auto|].
  destruct (negb (bool_decide (_ = js "local"))).
  - destruct (createWhisperTranscription w); by split_and!; auto.
  - destruct (writeFile w), (spawn w); cbn [jobs_after watching effects];
      (split_and!; [by right| by intros; rewrite lookup_insert_ne | | done]);
      try done.
    intros id [= <-]. by rewrite lookup_insert_eq.
Qed.

Lemma post_transcribe_registry_witness :
  let w := World {[js "WHISPER_MODE" := js "LOCAL"]} (js "/tmp") (js "/srv")
             (js "7d4c") (inl []) None None in
  let f := Upload (js "audio/mpeg") (js "talk.mp3") [x00; x01] in
  let jobs := <[js "91aa" := Job done 100 (Some (js "old")) None]> (∅ : gmap (list Z) job) in
  jobs_after (post_transcribe w (Some f) jobs) !! js "91aa" = jobs !! js "91aa" ∧
  jobs_after (post_transcribe w (Some f) jobs) !! js "7d4c" = Some new_job.
Proof.
  intros w f jobs.
  destruct (post_transcribe_registry w (Some f) jobs) as (_ & Hother & Hwatch & _).
  split.
  - apply Hother. apply (bool_decide_eq_false_1 (_ = _)). vm_compute. reflexivity.
  - apply (Hwatch (js "7d4c")). vm_compute. reflexivity.
Defined.

(** ** [createWhisperTranscription] *)

(** [X16] The gateway never reaches the synchronous local
    transcription.  When POST /api/transcribe calls
    [createWhisperTranscription], the mode it has read is not
    ['local']; read again from the same environment, the mode sends the
    call to the remote service: no temporary file, no subprocess. *)
Theorem gateway_never_transcribes_locally (w : world) (f : upload)
    (jobs : gmap (list Z) job) (ww : Whisper.world) (buf : list byte) (name : list Z) :
  l_env (Whisper.local ww) = env w →
  existsb is_Transcribe (effects (post_transcribe w (Some f) jobs)) = true →
  Whisper.createWhisperTranscription ww buf name
  = (map inr (Whisper.transcribeWithOpenAI ww buf name).1,
     (Whisper.transcribeWithOpenAI ww buf name).2).
Proof.
  intros Henv. unfold post_transcribe, Whisper.createWhisperTranscription. rewrite Henv.
  destruct (negb (bool_decide (mimetype f ∈ okMimes))); [done|].
  case_bool_decide; [|done]. cbn [negb].
  by destruct (writeFile w), (spawn w).
Qed.

Lemma gateway_never_transcribes_locally_witness :
  let w := World {[js "WHISPER_MODE" := js "api"]} (js "/tmp") (js "/srv")
             (js "7d4c") (inl (js "hi")) None None in
  let lw := LocalWorld {[js "WHISPER_MODE" := js "api"]} (js "/tmp") (js "/srv")
              1700000000000 1700000000001 None [] (Some 0) (inl []) (λ _, false) in
  let ww := Whisper.World dev_secret (sample_db (js "openai") (js "sk-abc123")) lw
              (inl (RespString (js " hi "))) in
  Whisper.createWhisperTranscription ww [x00] (js "a.wav")
  = ([inr (OpenAITranscription (js "sk-abc123") (js "whisper-1") [x00] (js "a.wav"))],
     inl (js "hi")).
Proof.
  intros w lw ww.
  rewrite (gateway_never_transcribes_locally w
             (Upload (js "audio/wav") (js "a.wav") [x00]) ∅ ww).
  - vm_compute. reflexivity.
  - reflexivity.
  - vm_compute. reflexivity.
Defined.

(** [X17] Whatever the mode, a transcript that
    [createWhisperTranscription] returns is trimmed: trimming it again
    changes nothing. *)
Theorem transcript_is_trimmed (ww : Whisper.world) (buf : list byte)
    (name text : list Z) :
  (Whisper.createWhisperTranscription ww buf name).2 = inl text → trim text = text.
Proof.
  unfold Whisper.createWhisperTranscription. case_bool_decide; cbn [snd].
  - unfold transcribeLocal. destruct (l_writeFile _); [done|].
    case_bool_decide; [|done]. intros [= <-]. apply trim_idempotent.
  - unfold Whisper.transcribeWithOpenAI. destruct (resolve_key _ _ _ _ _ _); [|done].
    destruct (Whisper.openai ww) as [[s|[[|c t]|]|]|]; try done;
      intros [= <-]; apply trim_idempotent.
Qed.

Lemma transcript_is_trimmed_witness :
  let lw := LocalWorld {[js "WHISPER_MODE" := js "local"]} (js "/tmp") (js "/srv")
              1700000000000 1700000000001 None [] (Some 0)
              (inl (js "  hello world " ++ [10])) (λ _, false) in
  let ww := Whisper.World dev_secret (ensureDb None) lw (inl RespNullish) in
  trim (js "hello world") = js "hello world".
Proof.
  intros lw ww. apply (transcript_is_trimmed ww [x00] (js "a.wav")).
  vm_compute. reflexivity.
Defined.

(** ** Resolving a key, and the adapters *)

(** Where the key of a request comes from: a stored key that is not
    empty is used whatever the environment holds; without one, the
    environment variable is used when it is set and not empty;
    otherwise the call fails with the missing-key error. *)
Lemma resolve_key_order (secret : list Z) (d : db) (env : gmap (list Z) (list Z))
    (provider name missing : string) :
  (∀ k, k ≠ [] → getKey secret (js provider) false d = inl (Some k) →
     resolve_key secret d env provider name missing = inl k) ∧
  (∀ v, v ≠ [] →
     getKey secret (js provider) false d = inl None ∨
     getKey secret (js provider) false d = inl (Some []) →
     env !! js name = Some v →
     resolve_key secret d env provider name missing = inl v) ∧
  (getKey secret (js provider) false d = inl None ∨
   getKey secret (js provider) false d = inl (Some []) →
   env !! js name = None ∨ env !! js name = Some [] →
   resolve_key secret d env provider name missing = inr (JsError None (js missing))).
Proof.
  unfold resolve_key. split_and!.
  - intros k Hk ->. by destruct k.
  - intros v Hv [-> | ->] ->; by destruct v.
  - by intros [-> | ->] [-> | ->].
Qed.

(** [X18] Without a key nothing is sent.  When no key is stored for the
    provider (or an empty one) and the environment variable is unset or
    empty, each of the three adapters fails with its missing-key error
    and makes no request to the remote service. *)
Theorem adapters_fail_without_key (w : analysis_world) (ww : Whisper.world)
    (prompt : list Z) (buf : list byte) (name : list Z) :
  (no_key (a_secret w) (a_database w) (a_env w) "openai" "OPENAI_API_KEY" →
   analyzeWithOpenAI w prompt = ([], inr (JsError None (js "缺少 OpenAI API Key")))) ∧
  (no_key (a_secret w) (a_database w) (a_env w) "google" "GOOGLE_API_KEY" →
   analyzeWithGoogle w prompt = ([], inr (JsError None (js "缺少 Google API Key")))) ∧
  (no_key (Whisper.secret ww) (Whisper.database ww) (l_env (Whisper.local ww))
     "openai" "OPENAI_API_KEY" →
   Whisper.transcribeWithOpenAI ww buf name
   = ([], inr (JsError None (js "缺少 OpenAI API Key")))).
Proof.
  unfold analyzeWithOpenAI, analyzeWithGoogle, Whisper.transcribeWithOpenAI.
  unfold no_key. split_and!; intros [Hs He];
    by rewrite (proj2 (proj2 (resolve_key_order _ _ _ _ _ _)) Hs He).
Qed.

Lemma adapters_fail_without_key_witness :
  let w := AnalysisWorld dev_secret (sample_db (js "openai") (js "sk-abc123"))
             {[js "GOOGLE_API_KEY" := []]} (inl None) (inl (Some (js "notes"))) in
  analyzeWithGoogle w (js "prompt")
  = ([], inr (JsError None (js "缺少 Google API Key"))).
Proof.
  intros w.
  apply (proj1 (proj2 (adapters_fail_without_key w
                         (Whisper.World dev_secret (ensureDb None)
                            (LocalWorld ∅ [] [] 0 0 None [] None (inl []) (λ _, false))
                            (inl RespNullish))
                         (js "prompt") [] []))).
  split; [left|right]; vm_compute; reflexivity.
Defined.

(** [X19] A stored key wins over the environment.  When a non-empty
    key is stored for the provider, the one request an adapter makes
    carries that key, whatever the environment variable holds. *)
Theorem stored_key_is_used (w : analysis_world) (ww : Whisper.world)
    (prompt : list Z) (buf : list byte) (name : list Z) (key : list Z) :
  key ≠ [] →
  (getKey (a_secret w) (js "openai") false (a_database w) = inl (Some key) →
   ∃ model system,
     (analyzeWithOpenAI w prompt).1 = [OpenAIChat key model system prompt]) ∧
  (getKey (a_secret w) (js "google") false (a_database w) = inl (Some key) →
   ∃ model,
     (analyzeWithGoogle w prompt).1 = [GooglePost (google_url model key) prompt]) ∧
  (getKey (Whisper.secret ww) (js "openai") false (Whisper.database ww)
   = inl (Some key) →
   ∃ model,
     (Whisper.transcribeWithOpenAI ww buf name).1
     = [OpenAITranscription key model buf name]).
Proof.
  intros Hk.
  unfold analyzeWithOpenAI, analyzeWithGoogle, Whisper.transcribeWithOpenAI.
  split_and!; intros Hs;
    rewrite (proj1 (resolve_key_order _ _ _ _ _ _) key Hk Hs).
  - destruct (chat_content w); simpl; eauto.
  - destruct (google_text w); simpl; eauto.
  - destruct (Whisper.openai ww) as [[s|[[|c t]|]|]|]; simpl; eauto.
Qed.

Lemma stored_key_is_used_witness :
  let w := AnalysisWorld dev_secret (sample_db (js "google") (js "AIza-stored"))
             {[js "GOOGLE_API_KEY" := js "AIza-env"]} (inl None)
             (inl (Some (js "notes"))) in
  ∃ model,
    (analyzeWithGoogle w (js "prompt")).1
    = [GooglePost (google_url model (js "AIza-stored")) (js "prompt")].
Proof.
  intros w.
  apply (proj1 (proj2 (stored_key_is_used w
                         (Whisper.World dev_secret (ensureDb None)
                            (LocalWorld ∅ [] [] 0 0 None [] None (inl []) (λ _, false))
                            (inl RespNullish))
                         (js "prompt") [] [] (js "AIza-stored") ltac:(discriminate)))).
  vm_compute. reflexivity.
Defined.

(** ** POST /api/analyze *)

Lemma adapters_one_call (w : analysis_world) (prompt : list Z) :
  (length (analyzeWithOpenAI w prompt).1 ≤ 1)%nat ∧
  (length (analyzeWithGoogle w prompt).1 ≤ 1)%nat.
Proof.
  unfold analyzeWithOpenAI, analyzeWithGoogle. split.
  - destruct (resolve_key _ _ _ "openai" _ _); [|simpl; lia].
    destruct (chat_content w); simpl; lia.
  - destruct (resolve_key _ _ _ "google" _ _); [|simpl; lia].
    destruct (google_text w); simpl; lia.
Qed.

(** [X20] POST /api/analyze sends at most one request to a remote
    service, sends one only when the provider is ['openai'] or
    ['google'], and sends none when it answers 400 (a field missing or
    empty, or an unknown provider); this holds whatever
    [addNotePrefix] computes. *)
Theorem post_analyze_requests (addNotePrefix : list Z → list Z)
    (w : analysis_world) (provider text : option (list Z)) :
  (length (post_analyze addNotePrefix w provider text).1 ≤ 1)%nat ∧
  ((post_analyze addNotePrefix w provider text).1 ≠ [] →
   provider = Some (js "openai") ∨ provider = Some (js "google")) ∧
  (∀ message,
     (post_analyze addNotePrefix w provider text).2 = AnalyzeError 400 message →
     (post_analyze addNotePrefix w provider text).1 = []) ∧
  (provider ≠ Some (js "openai") → provider ≠ Some (js "google") →
   ∃ message, (post_analyze addNotePrefix w provider text).2 = AnalyzeError 400 message).
Proof.
  unfold post_analyze.
  destruct provider as [p|]; [|split_and!; simpl; eauto; done || lia].
  destruct text as [t|]; [|split_and!; simpl; eauto; done || lia].
  destruct (falsy (Some p) || falsy (Some t)); [split_and!; simpl; eauto; done || lia|].
  destruct (adapters_one_call w (addNotePrefix t)) as [Ho Hg].
  case_bool_decide as Hopenai; [subst p|case_bool_decide as Hgoogle; [subst p|]].
  - destruct (analyzeWithOpenAI w (addNotePrefix t)) as [calls [out|e]] eqn:E;
      simpl in *; split_and!; eauto; try done.
  - destruct (analyzeWithGoogle w (addNotePrefix t)) as [calls [out|e]] eqn:E;
      simpl in *; split_and!; eauto; try done.
  - split_and!; simpl; eauto; try done; try lia.
Qed.

Lemma post_analyze_requests_witness :
  ∃ message,
    (post_analyze (λ t, js "notes: " ++ t)
       (AnalysisWorld dev_secret (ensureDb None) ∅ (inl None) (inl None))
       (Some (js "unknown")) (Some (js "text"))).2
    = AnalyzeError 400 message.
Proof.
  apply post_analyze_requests.
  - intros H. vm_compute in H. discriminate.
  - intros H. vm_compute in H. discriminate.
Defined.

(** *** The files of a job *)

Lemma spawned_out_path (w : world) (file : option upload) (jobs : gmap (list Z) job)
    (py : list Z) (args : list (list Z)) :
  Spawn py args ∈ effects (post_transcribe w file jobs) →
  args !! 2%nat = Some (join [tmpdir w; js "out-" ++ randomUUID w ++ js ".txt"]).
Proof.
  unfold post_transcribe.
  destruct file as [f|]; [|by intros [H|H%elem_of_nil]%elem_of_cons].
  destruct (negb (bool_decide (mimetype f ∈ okMimes)));
    [by intros [H|H%elem_of_nil]%elem_of_cons|].
  destruct (negb (bool_decide (_ = js "local"))).
  - destruct (createWhisperTranscription w); cbn [effects]; intros H;
      repeat (apply elem_of_cons in H as [H|H]; [discriminate|]);
      by apply elem_of_nil in H.
  - destruct (writeFile w), (spawn w); cbn [effects]; intros H;
      repeat (apply elem_of_cons in H as [H|H];
              [first [discriminate | by injection H as -> ->]|]);
      by apply elem_of_nil in H.
Qed.

Lemma join_two_inj t a b : join [t; a] = join [t; b] → a = b.
Proof.
  unfold join. cbn [fold_left]. intros H.
  by apply app_inv_head, app_inv_head in H.
Qed.

(** [X21] Two jobs never share their transcript file: in one temporary
    directory, subprocesses spawned for requests with different UUIDs
    are given different output paths. *)
Theorem jobs_have_their_own_output_file (w1 w2 : world) (f1 f2 : option upload)
    (jobs1 jobs2 : gmap (list Z) job) (py1 py2 : list Z) (args1 args2 : list (list Z)) :
  Spawn py1 args1 ∈ effects (post_transcribe w1 f1 jobs1) →
  Spawn py2 args2 ∈ effects (post_transcribe w2 f2 jobs2) →
  tmpdir w1 = tmpdir w2 → randomUUID w1 ≠ randomUUID w2 →
  args1 !! 2%nat ≠ args2 !! 2%nat.
Proof.
  intros H1%spawned_out_path H2%spawned_out_path Ht Hne. rewrite H1, H2, Ht.
  intros [= H%join_two_inj]. apply Hne.
  injection H as H. by apply app_inv_tail in H.
Qed.

Lemma jobs_have_their_own_output_file_witness :
  let w id := World {[js "WHISPER_MODE" := js "local"]} (js "/tmp") (js "/srv")
                id (inl []) None None in
  let f := Some (Upload (js "audio/wav") (js "a.wav") [x00]) in
  let args id := [js "/srv/src/services/whisper_local.py";
                  js "/tmp/in-" ++ id ++ js "-a.wav"; js "/tmp/out-" ++ id ++ js ".txt";
                  js "large-v3-turbo"; js "cpu"; js "int8"] in
  args (js "7d4c") !! 2%nat ≠ args (js "91aa") !! 2%nat.
Proof.
  intros w f args.
  apply (jobs_have_their_own_output_file (w (js "7d4c")) (w (js "91aa")) f f ∅ ∅
           (js "python") (js "python")).
  - vm_compute. apply list_elem_of_further, list_elem_of_further, list_elem_of_here.
  - vm_compute. apply list_elem_of_further, list_elem_of_further, list_elem_of_here.
  - reflexivity.
  - apply (bool_decide_eq_false_1 (_ = _)). vm_compute. reflexivity.
Defined.
